(** * retrodep: working trees, pseudo-versions and import-comment stripping

    A shallow embedding of [retrodep/workingtree.go] and of the parts of
    the packages it imports that its behaviour depends on ([regexp],
    [strconv], [time], [sort], [os/exec], [syscall] and
    [github.com/Masterminds/semver]), followed by the properties of
    [PseudoVersion], [VersionTags], [removeImportComment],
    [StripImportComment] and [Diff].

    Go strings are [string] (a sequence of bytes), [[]byte] is
    [list ascii], [int64] and [int] are [Z] with the wrap-around written
    out, a [(value, error)] result is a pair whose second component is
    [None] for a nil error, and a run-time panic is an outcome of its own. *)

From Stdlib Require Import ZArith Ascii String DecimalString.
From stdpp Require Import base decidable option list gmap strings sorting.

Local Open Scope Z_scope.

(** ** Go preliminaries *)

Abbreviation bytes := (list ascii).

(** [[]byte(s)] and [string(b)]. *)
Definition to_bytes (s : string) : bytes := list_ascii_of_string s.
Definition of_bytes (b : bytes) : string := string_of_list_ascii b.

(** The double quote and the backtick, by their codes. *)
Definition dquote : ascii := "034"%char.
Definition backtick : ascii := "096"%char.
Definition newline : ascii := "010"%char.

(** Go's [error] values that the file distinguishes. [ErrorVersionNotFound]
    and [ErrorUnknownVCS] are the package's sentinel values, compared by
    identity; [io_EOF] is [io.EOF]; [ExitError] is [*exec.ExitError]
    carrying the process's wait status; [errors_Wrap] is
    [errors.Wrap(err, msg)]. *)
Inductive error :=
| ErrorVersionNotFound
| ErrorUnknownVCS
| io_EOF
| ErrInvalidSemVer
| ErrRange (what : string)
| ExitError (waitStatus : Z)
| errorString (msg : string)
| errors_Wrap (cause : error) (msg : string).

#[global] Instance error_eq_dec : EqDecision error.
Proof. solve_decision. Defined.

(** The outcome of a call that may panic at run time. *)
Inductive outcome (A : Type) :=
| Returns (a : A)
| Panics (msg : string).
Arguments Returns {A} a.
Arguments Panics {A} msg.

(** [int64] arithmetic. *)
Definition max_int64 : Z := 9223372036854775807.
Definition min_int64 : Z := -9223372036854775808.
Definition wrap_int64 (x : Z) : Z := (x - min_int64) mod 2 ^ 64 + min_int64.

(** [%d] of an integer: decimal digits, with a leading minus sign. *)
Definition itoa (x : Z) : string := NilZero.string_of_int (Z.to_int x).

(** ** Package [regexp]: leftmost-first matching with submatches

    Go's [regexp] returns the match a backtracking search finds first; the
    matcher below is that search, written with a success continuation.
    Only the operators that the two patterns of this program use are
    represented. *)
Module regexp.

Inductive Regexp :=
| Empty
| Class (p : ascii → bool)
| Cat (r1 r2 : Regexp)
| Alt (r1 r2 : Regexp)
| Star (r : Regexp)
| Capture (i : nat) (r : Regexp)
| BeginText
| EndText.

(** [a[2*i], a[2*i+1]] of Go's match array, kept as the matched bytes. *)
Abbreviation captures := (list (option bytes)).
Abbreviation cont := (nat → bytes → captures → option captures).

(** Greedy iteration: one more round of [body] is preferred to stopping;
    a round that consumes nothing is not repeated. *)
Fixpoint star_loop (body : nat → bytes → captures → cont → option captures)
    (fuel : nat) (pos : nat) (s : bytes) (caps : captures) (k : cont)
    : option captures :=
  match fuel with
  | O => k pos s caps
  | S fuel' =>
      match body pos s caps
              (λ pos' s' caps',
                 if decide (length s' < length s)%nat
                 then star_loop body fuel' pos' s' caps' k else None) with
      | Some m => Some m
      | None => k pos s caps
      end
  end.

Fixpoint run (r : Regexp) (pos : nat) (s : bytes) (caps : captures)
    (k : cont) : option captures :=
  match r with
  | Empty => k pos s caps
  | Class p =>
      match s with
      | c :: s' => if p c then k (S pos) s' caps else None
      | [] => None
      end
  | Cat r1 r2 => run r1 pos s caps (λ pos' s' caps', run r2 pos' s' caps' k)
  | Alt r1 r2 =>
      match run r1 pos s caps k with
      | Some m => Some m
      | None => run r2 pos s caps k
      end
  | Star r' => star_loop (run r') (length s) pos s caps k
  | Capture i r' =>
      run r' pos s caps
        (λ pos' s' caps', k pos' s' (<[i := Some (take (pos' - pos) s)]> caps'))
  | BeginText => if decide (pos = O) then k pos s caps else None
  | EndText => match s with [] => k pos s caps | _ :: _ => None end
  end.

(** Derived operators. *)
Definition Plus (r : Regexp) : Regexp := Cat r (Star r).
Definition Quest (r : Regexp) : Regexp := Alt r Empty.
Definition Char (c : ascii) : Regexp := Class (λ x, bool_decide (x = c)).
Definition NotChar (c : ascii) : Regexp := Class (λ x, bool_decide (x ≠ c)).
Fixpoint Literal (s : bytes) : Regexp :=
  match s with
  | [] => Empty
  | c :: s' => Cat (Char c) (Literal s')
  end.
Definition Lit (s : string) : Regexp := Literal (to_bytes s).

(** Perl classes as RE2 defines them. *)
Definition in_range (lo hi : nat) (c : ascii) : bool :=
  (lo <=? nat_of_ascii c)%nat && (nat_of_ascii c <=? hi)%nat.
Definition is_digit (c : ascii) : bool := in_range 48 57 c.
Definition is_upper (c : ascii) : bool := in_range 65 90 c.
Definition is_lower (c : ascii) : bool := in_range 97 122 c.
(** [\s] is [[\t\n\f\r ]]. *)
Definition is_space (c : ascii) : bool :=
  let n := nat_of_ascii c in
  (n =? 9)%nat || (n =? 10)%nat || (n =? 12)%nat || (n =? 13)%nat || (n =? 32)%nat.
(** [\w] is [[0-9A-Za-z_]]. *)
Definition is_word (c : ascii) : bool :=
  is_digit c || is_upper c || is_lower c || (nat_of_ascii c =? 95)%nat.
(** [.] without the [s] flag: any character but a newline. *)
Definition is_dot (c : ascii) : bool := bool_decide (c ≠ newline).

(** What it means for an expression to match, whatever the search order:
    from position [pos] with [s] left to read and captures [caps], the
    expression can consume input and arrive at [pos'], [s'], [caps']. *)
Inductive denote : Regexp → nat → bytes → captures → nat → bytes → captures → Prop :=
| denote_Empty pos s caps : denote Empty pos s caps pos s caps
| denote_Class p c pos s caps :
    p c = true → denote (Class p) pos (c :: s) caps (S pos) s caps
| denote_Cat r1 r2 pos s caps pos1 s1 caps1 pos2 s2 caps2 :
    denote r1 pos s caps pos1 s1 caps1 →
    denote r2 pos1 s1 caps1 pos2 s2 caps2 →
    denote (Cat r1 r2) pos s caps pos2 s2 caps2
| denote_Alt_l r1 r2 pos s caps pos' s' caps' :
    denote r1 pos s caps pos' s' caps' → denote (Alt r1 r2) pos s caps pos' s' caps'
| denote_Alt_r r1 r2 pos s caps pos' s' caps' :
    denote r2 pos s caps pos' s' caps' → denote (Alt r1 r2) pos s caps pos' s' caps'
| denote_Star_stop r pos s caps : denote (Star r) pos s caps pos s caps
| denote_Star_more r pos s caps pos1 s1 caps1 pos2 s2 caps2 :
    denote r pos s caps pos1 s1 caps1 →
    (length s1 < length s)%nat →
    denote (Star r) pos1 s1 caps1 pos2 s2 caps2 →
    denote (Star r) pos s caps pos2 s2 caps2
| denote_Capture i r pos s caps pos' s' caps' :
    denote r pos s caps pos' s' caps' →
    denote (Capture i r) pos s caps pos' s' (<[i := Some (take (pos' - pos) s)]> caps')
| denote_BeginText s caps : denote BeginText 0 s caps 0 s caps
| denote_EndText pos caps : denote EndText pos [] caps pos [] caps.

(** A compiled pattern: the expression (group 0 is the whole match) and
    the number of parenthesised groups. *)
Record compiled := MustCompile { expr : Regexp; numSubexp : nat }.

(** The unanchored search: start positions are tried from the left. *)
Fixpoint search (r : Regexp) (n : nat) (pos : nat) (s : bytes) : option captures :=
  match run (Capture 0 r) pos s (replicate (S n) None) (λ _ _ caps, Some caps) with
  | Some m => Some m
  | None =>
      match s with
      | _ :: s' => search r n (S pos) s'
      | [] => None
      end
  end.

(** [re.FindSubmatch(b)]: [None] is Go's nil result; in a match, an
    entry [None] is a group that took no part in it. *)
Definition FindSubmatch (re : compiled) (b : bytes) : option captures :=
  search (expr re) (numSubexp re) 0 b.

(** [re.FindStringSubmatch(s)]: groups as strings, [""] when unmatched. *)
Definition FindStringSubmatch (re : compiled) (s : string) : option (list string) :=
  match FindSubmatch re (to_bytes s) with
  | Some m => Some (map (λ g : option bytes, of_bytes (default [] g)) m)
  | None => None
  end.

End regexp.

(** ** Package [strconv] and [strings] *)

Definition digit_value (c : ascii) : Z := Z.of_nat (nat_of_ascii c) - 48.

(** [strconv.ParseInt(s, 10, 64)]: an optional sign, then decimal digits;
    a value outside [int64] is a range error. *)
Definition ParseInt (s : string) : Z + error :=
  let b := to_bytes s in
  let neg := bool_decide (head b = Some "-"%char) in
  let ds := if bool_decide (head b = Some "+"%char) || neg then tail b else b in
  if bool_decide (ds = []) || negb (forallb regexp.is_digit ds)
  then inr (errorString "invalid syntax")
  else
    let n := fold_left (λ acc c, 10 * acc + digit_value c) ds 0 in
    let v := if neg then - n else n in
    if bool_decide (min_int64 ≤ v ≤ max_int64) then inl v
    else inr (ErrRange s).

Definition HasPrefix (s prefix : string) : bool := String.prefix prefix s.

Definition HasSuffix (s suffix : string) : bool :=
  let n := String.length s in
  let m := String.length suffix in
  (m <=? n)%nat && bool_decide (String.substring (n - m) m s = suffix).

Definition TrimPrefix (s prefix : string) : string :=
  if HasPrefix s prefix
  then String.substring (String.length prefix) (String.length s - String.length prefix) s
  else s.

(** ** Package [github.com/Masterminds/semver]

    The package is imported, not part of this repository. What the
    program depends on is embedded here: the grammar [NewVersion] accepts
    (its regular expression), the fields it fills, [String], [IncPatch],
    [Prerelease] and the comparison behind [Collection]'s [Less]. The
    precedence of two non-empty prerelease strings is a parameter of
    [Compare]. *)
Module semver.

Record Version := mkVersion {
  major : Z;
  minor : Z;
  patch : Z;
  pre : string;
  metadata : string;
  original : string;
}.

#[global] Instance Version_eq_dec : EqDecision Version.
Proof. solve_decision. Defined.

#[global] Instance Version_inhabited : Inhabited Version :=
  populate (mkVersion 0 0 0 "" "" "").

Import regexp.

(** [[0-9A-Za-z\-]] *)
Definition is_ident (c : ascii) : bool :=
  is_digit c || is_upper c || is_lower c || bool_decide (c = "-"%char).

Definition digits : Regexp := Plus (Class is_digit).
(** [[0-9A-Za-z\-]+(\.[0-9A-Za-z\-]+)*], its inner group numbered [g]. *)
Definition idents (g : nat) : Regexp :=
  Cat (Plus (Class is_ident))
      (Star (Capture g (Cat (Char ".") (Plus (Class is_ident))))).

(** [SemVerRegex] between [^] and [$]. *)
Definition versionRegex : compiled :=
  MustCompile
    (Cat BeginText
    (Cat (Quest (Char "v"))
    (Cat (Capture 1 digits)
    (Cat (Quest (Capture 2 (Cat (Char ".") digits)))
    (Cat (Quest (Capture 3 (Cat (Char ".") digits)))
    (Cat (Quest (Capture 4 (Cat (Char "-") (Capture 5 (idents 6)))))
    (Cat (Quest (Capture 7 (Cat (Char "+") (Capture 8 (idents 9)))))
         EndText)))))))
    9.

Definition group (m : list string) (i : nat) : string := default "" (m !! i).

(** [NewVersion(v)]: a pointer to the parsed version, or an error. *)
Definition NewVersion (v : string) : Version + error :=
  match FindStringSubmatch versionRegex v with
  | None => inr ErrInvalidSemVer
  | Some m =>
      match ParseInt (group m 1) with
      | inr e => inr (errors_Wrap e "Error parsing version segment")
      | inl maj =>
          let min_r :=
            if bool_decide (group m 2 ≠ "")
            then ParseInt (TrimPrefix (group m 2) ".") else inl 0 in
          match min_r with
          | inr e => inr (errors_Wrap e "Error parsing version segment")
          | inl mi =>
              let pat_r :=
                if bool_decide (group m 3 ≠ "")
                then ParseInt (TrimPrefix (group m 3) ".") else inl 0 in
              match pat_r with
              | inr e => inr (errors_Wrap e "Error parsing version segment")
              | inl pa => inl (mkVersion maj mi pa (group m 5) (group m 8) v)
              end
          end
      end
  end.

Definition Prerelease (v : Version) : string := pre v.

(** [v.String()]: [%d.%d.%d], then [-pre] and [+metadata] when present. *)
Definition String (v : Version) : string :=
  itoa (major v) +:+ "." +:+ itoa (minor v) +:+ "." +:+ itoa (patch v)
  +:+ (if bool_decide (pre v ≠ "") then "-" +:+ pre v else "")
  +:+ (if bool_decide (metadata v ≠ "") then "+" +:+ metadata v else "").

Definition originalVPrefix (v : Version) : string :=
  if bool_decide (original v ≠ "") && bool_decide (String.substring 0 1 (original v) = "v")
  then "v" else "".

(** [v.IncPatch()]: metadata and prerelease are dropped; the patch number
    grows by one (in [int64]) unless a prerelease was present. *)
Definition IncPatch (v : Version) : Version :=
  let vNext :=
    if bool_decide (pre v ≠ "")
    then mkVersion (major v) (minor v) (patch v) "" "" (original v)
    else mkVersion (major v) (minor v) (wrap_int64 (patch v + 1)) "" "" (original v) in
  mkVersion (major vNext) (minor vNext) (patch vNext) (pre vNext) (metadata vNext)
    (originalVPrefix v +:+ String vNext).

Definition compareSegment (v o : Z) : Z :=
  if bool_decide (v < o) then -1 else if bool_decide (v > o) then 1 else 0.

(** [v.Compare(o)]: -1, 0 or 1. Build metadata takes no part. *)
Definition Compare (comparePrerelease : string → string → Z) (v o : Version) : Z :=
  let d := compareSegment (major v) (major o) in
  if bool_decide (d ≠ 0) then d else
  let d := compareSegment (minor v) (minor o) in
  if bool_decide (d ≠ 0) then d else
  let d := compareSegment (patch v) (patch o) in
  if bool_decide (d ≠ 0) then d else
  let ps := pre v in
  let po := Prerelease o in
  if bool_decide (ps = "") && bool_decide (po = "") then 0 else
  if bool_decide (ps = "") then 1 else
  if bool_decide (po = "") then -1 else
  comparePrerelease ps po.

Definition LessThan (comparePrerelease : string → string → Z) (v o : Version) : bool :=
  bool_decide (Compare comparePrerelease v o < 0).

End semver.

(** ** Package [time] *)

(** A [time.Time], by the calendar date and clock reading that [t.Date()]
    and [t.Clock()] give in the time's own location. *)
Record Time := mkTime {
  Year : Z;
  Month : Z;
  Day : Z;
  Hour : Z;
  Minute : Z;
  Second : Z;
}.

(** The ranges of [Date] and [Clock]. *)
Definition valid_Time (t : Time) : Prop :=
  1 ≤ Month t ≤ 12 ∧ 1 ≤ Day t ≤ 31 ∧
  0 ≤ Hour t ≤ 23 ∧ 0 ≤ Minute t ≤ 59 ∧ 0 ≤ Second t ≤ 59.

(** [appendInt(b, x, width)]: a minus sign for a negative [x], then the
    decimal digits of its magnitude, zero-padded to [width]. *)
Definition appendInt (x : Z) (width : nat) : string :=
  let ds := itoa (Z.abs x) in
  (if bool_decide (x < 0) then "-" else "")
  +:+ of_bytes (replicate (width - String.length ds) "0"%char) +:+ ds.

(** [t.Format("20060102150405")]: the layout's elements are the four-digit
    year and the two-digit month, day, hour, minute and second. *)
Definition Format (t : Time) : string :=
  appendInt (Year t) 4 +:+ appendInt (Month t) 2 +:+ appendInt (Day t) 2
  +:+ appendInt (Hour t) 2 +:+ appendInt (Minute t) 2 +:+ appendInt (Second t) 2.

(** ** [Describable] and [PseudoVersion] *)

(** The interface [Describable]: its two methods, each returning a value
    and an error. *)
Record Describable := {
  ReachableTag : string → string * option error;
  TimeFromRevision : string → Time * option error;
}.

(** [PseudoVersion(d, rev)]. The slice [rev[:12]] panics when [rev] has
    fewer than 12 bytes. *)
Definition PseudoVersion (d : Describable) (rev : string)
    : outcome (string * option error) :=
  let suffix := "-0." in
  let '(reachable, err) := ReachableTag d rev in
  let chosen : string * string + error :=
    if bool_decide (err = Some ErrorVersionNotFound) then inl ("v0.0.0", suffix)
    else match err with
         | Some e => inr e
         | None =>
             match semver.NewVersion reachable with
             | inr _ => inl (reachable, "-1.")
             | inl ver =>
                 if bool_decide (semver.Prerelease ver = "")
                 then inl ("v" +:+ semver.String (semver.IncPatch ver), suffix)
                 else inl ("v" +:+ semver.String ver, ".0.")
             end
         end in
  match chosen with
  | inr e => Returns ("", Some e)
  | inl (version, suffix) =>
      let '(t, err) := TimeFromRevision d rev in
      match err with
      | Some e => Returns ("", Some e)
      | None =>
          let timestamp := Format t in
          if bool_decide (12 ≤ String.length rev)%nat
          then Returns (version +:+ suffix +:+ timestamp +:+ "-"
                        +:+ String.substring 0 12 rev, None)
          else Panics "slice bounds out of range"
      end
  end.

(** ** Package [sort] *)
Module sort.

(** [sort.Reverse(data)]: [Less(i, j)] is [data.Less(j, i)]. *)
Definition Reverse {A} (less : A → A → bool) : A → A → bool := λ a b, less b a.

(** What a [Less] must be on the elements being sorted for the result
    of [sort.Sort] to be ordered: asymmetric, and with a transitive
    complement (a strict weak order). *)
Definition consistent_on {A} (less : A → A → bool) (l : list A) : Prop :=
  (∀ a b, a ∈ l → b ∈ l → less a b = true → less b a = false) ∧
  (∀ a b c, a ∈ l → b ∈ l → c ∈ l →
      less a b = false → less b c = false → less a c = false).

(** No element is [less] than one standing before it. *)
Definition ordered {A} (less : A → A → bool) (l : list A) : Prop :=
  StronglySorted (λ a b, less b a = false) l.

(** [sort.Sort]: the algorithm is the library's choice (it has changed
    between Go releases and is not stable). *)
Definition Sorter : Type := ∀ A : Type, (A → A → bool) → list A → list A.

(** Its contract: the elements are only swapped, and end up ordered when
    [Less] is consistent on them. *)
Definition sorts (Sort : Sorter) : Prop :=
  (∀ A (less : A → A → bool) l, Sort A less l ≡ₚ l) ∧
  (∀ A (less : A → A → bool) l, consistent_on less l → ordered less (Sort A less l)).

(** [insertionSort], which every release of [sort.Sort] applies to a
    short slice: element [i] moves left while it is [Less] than its left
    neighbour. The sorted prefix is kept reversed, its last element
    first. *)
Fixpoint insert_left {A} (less : A → A → bool) (x : A) (rprefix : list A) : list A :=
  match rprefix with
  | [] => [x]
  | y :: r => if less x y then y :: insert_left less x r else x :: y :: r
  end.

Definition insertionSort : Sorter := λ A less l,
  reverse (fold_left (λ rprefix x, insert_left less x rprefix) l []).

End sort.

(** ** The working tree *)

(** [vcs.Cmd], by the two members the embedded methods use. *)
Record vcs_Cmd := {
  Cmd : string;
  Tags : string → list string * option error;
}.

Record anyWorkingTree := {
  Dir : string;
  VCS : vcs_Cmd;
}.

(** The state of the first loop of [VersionTags]. A [*semver.Version] is
    the index of its cell in [heap]; every successful [NewVersion]
    allocates a new cell, so two equal versions are still two keys of
    [versionTags]. *)
Record tagState := {
  heap : list semver.Version;
  versions : list nat;
  versionTags : gmap nat string;
}.

Definition tagStep (st : tagState) (tag : string) : tagState :=
  match semver.NewVersion tag with
  | inr _ => st
  | inl ver =>
      let v := length (heap st) in
      {| heap := heap st ++ [ver];
         versions := versions st ++ [v];
         versionTags := <[v := tag]> (versionTags st) |}
  end.

(** [Collection.Less(i, j)] on the cells two pointers refer to. *)
Definition Collection_Less (comparePrerelease : string → string → Z)
    (heap : list semver.Version) (v o : nat) : bool :=
  semver.LessThan comparePrerelease (heap !!! v) (heap !!! o).

(** [wt.VersionTags()]. *)
Definition VersionTags (Sort : sort.Sorter) (comparePrerelease : string → string → Z)
    (wt : anyWorkingTree) : list string * option error :=
  let '(tags, err) := Tags (VCS wt) (Dir wt) in
  match err with
  | Some e => ([], Some e)
  | None =>
      let st := fold_left tagStep tags {| heap := []; versions := []; versionTags := ∅ |} in
      let sorted :=
        Sort nat (sort.Reverse (Collection_Less comparePrerelease (heap st)))
          (versions st) in
      let strTags := (λ v, default "" (versionTags st !! v)) <$> sorted in
      (strTags, None)
  end.

(** The vocabulary of the statements about [VersionTags]: whether a tag
    parses, the tags that do with their versions, and how two tags of the
    result stand to each other under [LessThan]. *)
Definition parses (tag : string) : bool :=
  match semver.NewVersion tag with inl _ => true | inr _ => false end.

Definition parsedTags (tags : list string) : list (string * semver.Version) :=
  omap (λ tag, match semver.NewVersion tag with
               | inl ver => Some (tag, ver)
               | inr _ => None
               end) tags.

(** The version of [a] is not less than that of [b]. *)
Definition not_below (comparePrerelease : string → string → Z) (a b : string) : Prop :=
  ∀ va vb, semver.NewVersion a = inl va → semver.NewVersion b = inl vb →
    semver.LessThan comparePrerelease va vb = false.

(** The version of [b] is less than that of [a]. *)
Definition above (comparePrerelease : string → string → Z) (a b : string) : Prop :=
  ∀ va vb, semver.NewVersion a = inl va → semver.NewVersion b = inl vb →
    semver.LessThan comparePrerelease vb va = true.

(** No two of the versions, taken at different places, compare as equal. *)
Definition untied (comparePrerelease : string → string → Z)
    (vs : list semver.Version) : Prop :=
  ∀ i j vi vj, i ≠ j → vs !! i = Some vi → vs !! j = Some vj →
    semver.LessThan comparePrerelease vi vj = true ∨
    semver.LessThan comparePrerelease vj vi = true.

(** The state of the loop after the tags whose parsed forms are [ps]. *)
Definition tagInv (st : tagState) (ps : list (string * semver.Version)) : Prop :=
  heap st = ps.*2 ∧ versions st = seq 0 (length ps) ∧
  ∀ i : nat, versionTags st !! i = ps.*1 !! i.

(** ** Import comments *)

Import regexp.

Definition spaces : Regexp := Star (Class is_space).
Definition spaces1 : Regexp := Plus (Class is_space).

(** [quotedRE]: a double-quoted or a backtick-quoted non-empty text. *)
Definition quotedRE : Regexp :=
  Alt (Cat (Char dquote) (Cat (Plus (NotChar dquote)) (Char dquote)))
      (Cat (Char backtick) (Cat (Plus (NotChar backtick)) (Char backtick))).

(** [importRE]: [\s*import\s+] quotedRE [\s*]. *)
Definition importRE : Regexp :=
  Cat spaces (Cat (Lit "import") (Cat spaces1 (Cat quotedRE spaces))).

(** Group 1 of [importCommentRE]: [package\s+\w+]. *)
Definition packageRE : Regexp :=
  Cat (Lit "package") (Cat spaces1 (Plus (Class is_word))).

(** The two comment forms: [//] importRE [$] and [/\*] importRE [\*/]. *)
Definition commentRE : Regexp :=
  Alt (Cat (Lit "//") (Cat importRE EndText))
      (Cat (Lit "/*") (Cat importRE (Lit "*/"))).

Definition importCommentRE : compiled :=
  MustCompile
    (Cat BeginText
    (Cat (Capture 1 packageRE)
    (Cat spaces1
    (Cat commentRE
         (Capture 2 (Star (Class is_dot)))))))
    2.

(** [removeImportComment(line)]; [None] is the nil slice. *)
Definition removeImportComment (line : bytes) : option bytes :=
  match FindSubmatch importCommentRE line with
  | Some matches =>
      Some (default [] (matches !!! 1%nat) ++ default [] (matches !!! 2%nat))
  | None => None
  end.

(** The lines [importCommentRE] is written for, piece by piece. *)
Definition all_of (p : ascii → bool) (w : bytes) : Prop := Forall (λ c, p c = true) w.

(** [package], white space, an identifier. *)
Definition isDeclaration (decl : bytes) : Prop :=
  ∃ ws ident, decl = to_bytes "package" ++ ws ++ ident ∧
    ws ≠ [] ∧ all_of is_space ws ∧ ident ≠ [] ∧ all_of is_word ident.

(** A non-empty text between two double quotes or two backticks. *)
Definition isQuoted (lit : bytes) : Prop :=
  ∃ q body, (q = dquote ∨ q = backtick) ∧ lit = q :: body ++ [q] ∧
    body ≠ [] ∧ q ∉ body.

(** The sole content of the comment: [import] and a quoted path, with
    white space around. *)
Definition isImport (imp : bytes) : Prop :=
  ∃ ws1 ws2 lit ws3, imp = ws1 ++ to_bytes "import" ++ ws2 ++ lit ++ ws3 ∧
    all_of is_space ws1 ∧ ws2 ≠ [] ∧ all_of is_space ws2 ∧ isQuoted lit ∧
    all_of is_space ws3.

(** A declaration followed by a line comment that runs to the end. *)
Definition lineCommentForm (line decl : bytes) : Prop :=
  ∃ ws imp, isDeclaration decl ∧ ws ≠ [] ∧ all_of is_space ws ∧ isImport imp ∧
    line = decl ++ ws ++ to_bytes "//" ++ imp.

(** A declaration followed by a block comment, then [rest]. *)
Definition blockCommentForm (line decl rest : bytes) : Prop :=
  ∃ ws imp, isDeclaration decl ∧ ws ≠ [] ∧ all_of is_space ws ∧ isImport imp ∧
    line = decl ++ ws ++ to_bytes "/*" ++ imp ++ to_bytes "*/" ++ rest.

(** The next byte, if any, is not of the class [p]. *)
Definition stops (p : ascii → bool) (s : bytes) : Prop :=
  match s with
  | [] => True
  | c :: _ => p c = false
  end.

(** The bytes before the first newline. *)
Fixpoint upto_newline (s : bytes) : bytes :=
  match s with
  | [] => []
  | c :: s' => if is_dot c then c :: upto_newline s' else []
  end.

(** An [io.Writer]: the chunks it has taken so far, and whether it takes
    the next one. *)
Record Writer := {
  chunks : list bytes;
  refuses : list bytes → bytes → option error;
}.

Definition Write (w : Writer) (p : bytes) : Writer * option error :=
  match refuses w (chunks w) p with
  | Some e => (w, Some e)
  | None => ({| chunks := chunks w ++ [p]; refuses := refuses w |}, None)
  end.

(** Everything a writer has received. *)
Definition contents (w : Writer) : bytes := mjoin (chunks w).

(** A [bufio.Reader] over an open file: the bytes not yet consumed, and
    the error the file reports once they are ([None]: end of file). *)
Record Reader := {
  pending : bytes;
  failure : option error;
}.

(** The bytes up to and including the first [delim], and the rest. *)
Fixpoint cut_after (delim : ascii) (s : bytes) : option (bytes * bytes) :=
  match s with
  | [] => None
  | c :: s' =>
      if bool_decide (c = delim) then Some ([c], s')
      else match cut_after delim s' with
           | Some (l, r) => Some (c :: l, r)
           | None => None
           end
  end.

(** [b.ReadBytes(delim)]: without a delimiter, all that is left comes with
    the file's error or [io.EOF]. *)
Definition ReadBytes (b : Reader) (delim : ascii) : bytes * option error * Reader :=
  match cut_after delim (pending b) with
  | Some (line, rest) => (line, None, {| pending := rest; failure := failure b |})
  | None => (pending b, Some (default io_EOF (failure b)),
             {| pending := []; failure := failure b |})
  end.

(** [bytes.TrimRight(s, cutset)]. *)
Fixpoint TrimRight (s : bytes) (cutset : bytes) : bytes :=
  match s with
  | [] => []
  | c :: s' =>
      match TrimRight s' cutset with
      | [] => if bool_decide (c ∈ cutset) then [] else [c]
      | t => c :: t
      end
  end.

(** The body of the loop of [StripImportComment] once a line was read:
    the writer, [changed] and the error of [w.Write] afterwards. *)
Definition stripLine (w : Writer) (changed : bool) (line : bytes)
    : Writer * bool * option error :=
  if bool_decide (0 < length line)%nat then
    let nonl := TrimRight line [newline] in
    let changed := if bool_decide (length nonl = length line) then true else changed in
    let repl := removeImportComment nonl in
    let '(nonl, changed) :=
      match repl with
      | Some r => (r, true)
      | None => (nonl, changed)
      end in
    let '(w', err) := Write w (nonl ++ [newline]) in
    (w', changed, err)
  else (w, changed, None).

(** The loop [for !eof]: one round per [ReadBytes]. [None] is a loop cut
    short by [fuel]. *)
Fixpoint stripLoop (fuel : nat) (b : Reader) (w : Writer) (changed : bool)
    : option (Writer * (bool * option error)) :=
  match fuel with
  | O => None
  | S fuel' =>
      let '(line, err, b') := ReadBytes b newline in
      let after (eof : bool) :=
        let '(w', changed', werr) := stripLine w changed line in
        match werr with
        | Some e => Some (w', (false, Some (errors_Wrap e "StripImportComment")))
        | None =>
            if eof then Some (w', (changed', None))
            else stripLoop fuel' b' w' changed'
        end in
      match err with
      | Some e =>
          if bool_decide (e = io_EOF) then after true
          else Some (w, (false, Some (errors_Wrap e "StripImportComment")))
      | None => after false
      end
  end.

(** The vocabulary of the statements about [StripImportComment]: a writer
    that takes every chunk, a file as its lines (each without its newline)
    and what follows the last newline, the chunk written for a line, and
    whether a line is one that [removeImportComment] rewrites. *)
Definition accepting (w : Writer) : Prop := ∀ cs p, refuses w cs p = None.

Definition file_of (ls : list bytes) (last : bytes) : bytes :=
  mjoin ((λ l, l ++ [newline]) <$> ls) ++ last.

Definition emitted (l : bytes) : bytes :=
  default l (removeImportComment l) ++ [newline].

Definition annotated (l : bytes) : bool :=
  match removeImportComment l with Some _ => true | None => false end.

Definition ends_with_newline (p : bytes) : Prop := ∃ l, p = l ++ [newline].

(** ** Processes: [os/exec] and [syscall] *)

(** What running a command comes to: it could not be started, or it was
    waited for, the reads of the pipe from its standard output having
    brought the bytes [reads], one after the other, and the process having
    left the wait status [status] (a [uint32]). *)
Inductive ProcessResult :=
| NotStarted (msg : string)
| Waited (reads : list bytes) (status : Z).

(** [syscall.WaitStatus] on Linux. *)
Definition Exited (w : Z) : bool := bool_decide (Z.land w 127 = 0).
Definition ExitStatus (w : Z) : Z :=
  if Exited w then Z.land (Z.shiftr w 8) 255 else -1.
(** [ProcessState.Success()]. *)
Definition Success (w : Z) : bool := bool_decide (ExitStatus w = 0).
(** The wait status of a process that called [exit(code)]. *)
Definition exit_code (code : Z) : Z := Z.shiftl (Z.land code 255) 8.

(** [io.Copy(out, pipe)], as [os/exec] runs it for a [Stdout] that is not
    a file and is written to through [Write]: one [Write] for each read
    that brought bytes, until a [Write] fails. *)
Fixpoint io_Copy (out : Writer) (reads : list bytes) : Writer * option error :=
  match reads with
  | [] => (out, None)
  | p :: reads' =>
      if bool_decide (p = []) then io_Copy out reads'
      else
        let '(out', err) := Write out p in
        match err with
        | Some e => (out', Some e)
        | None => io_Copy out' reads'
        end
  end.

(** [p.Run()] with [p.Stdout = out]: the output is copied to [out]; the
    error is that of starting, else an [*ExitError] for an unsuccessful
    state, else the error of the copy. *)
Definition Run (p : ProcessResult) (out : Writer) : Writer * option error :=
  match p with
  | NotStarted msg => (out, Some (errorString msg))
  | Waited reads status =>
      let '(out', copyError) := io_Copy out reads in
      if negb (Success status) then (out', Some (ExitError status))
      else (out', copyError)
  end.

(** ** Methods that reach the file system or run a command

    [filepath.Join] of two elements, [os.Open] and the package variable
    [execCommand] are the environment. *)
Section Environment.

Variable filepath_Join : string → string → string.
Variable os_Open : string → Reader + error.
Variable execCommand : string → list string → ProcessResult.

(** [wt.StripImportComment(path, w)]: the writer afterwards and the two
    results. *)
Definition StripImportComment (wt : anyWorkingTree) (path : string) (w : Writer)
    : option (Writer * (bool * option error)) :=
  if negb (HasSuffix path ".go") then Some (w, (false, None))
  else
    let path := filepath_Join (Dir wt) path in
    match os_Open path with
    | inr err => Some (w, (false, Some (errors_Wrap err "StripImportComment")))
    | inl r => stripLoop (S (length (pending r))) r w false
    end.

(** The first operand of [diff]: [/dev/null] for no path, the path under
    the checkout for a relative one. *)
Definition diffPath (wt : anyWorkingTree) (path : string) : string :=
  if bool_decide (path = "") then "/dev/null"
  else if bool_decide (String.get 0 path ≠ Some "/"%char)
       then filepath_Join (Dir wt) path
       else path.

(** [wt.Diff(out, path, localFile)]: the writer afterwards and the two
    results. *)
Definition Diff (wt : anyWorkingTree) (out : Writer) (path localFile : string)
    : Writer * (bool * option error) :=
  let path := diffPath wt path in
  let p := execCommand "diff" ["-u"; path; localFile] in
  let '(out', err) := Run p out in
  let changes := false in
  match err with
  | Some (ExitError waitStatus) =>
      if Exited waitStatus && bool_decide (ExitStatus waitStatus = 1)
      then (out', (true, None))
      else (out', (changes, err))
  | _ => (out', (changes, err))
  end.

End Environment.


(** ** Stand-ins used in the examples *)

(** The commit of the examples: 2019-01-02T03:04:05Z. *)
Definition example_time : Time := mkTime 2019 1 2 3 4 5.

(** A stand-in for a checkout: every revision has the same reachable-tag
    answer and the same commit time. *)
Definition fixedDescribable (tag : string * option error) (t : Time * option error)
    : Describable :=
  {| ReachableTag := λ _, tag; TimeFromRevision := λ _, t |}.

Definition example_rev : string := "abcdef0123456789abcdef0123456789abcdef01".

(** A prerelease precedence for the examples: the order of the bytes. *)
Definition bytewise (a b : string) : Z :=
  match String.compare a b with Lt => -1 | Eq => 0 | Gt => 1 end.

(** A working tree whose backend lists the given tags. *)
Definition treeWithTags (tags : list string) : anyWorkingTree :=
  {| Dir := "/tmp/retrodep.0";
     VCS := {| Cmd := "git"; Tags := λ _, (tags, None) |} |}.

(** The two lines of the examples. *)
Definition line_comment_example : bytes :=
  to_bytes "package foo // import " ++ [dquote] ++ to_bytes "example.com/foo" ++ [dquote].

Definition block_comment_example : bytes :=
  to_bytes "package foo /* import " ++ [dquote] ++ to_bytes "example.com/foo"
  ++ [dquote] ++ to_bytes " */ // trailing".

(** A writer that takes everything, as a [bytes.Buffer] does. *)
Definition buffer : Writer := {| chunks := []; refuses := λ _ _, None |}.

(** A file system with one file, [/src/foo.go], and a working tree at [/src]. *)
Definition oneFile (content : bytes) (path : string) : Reader + error :=
  if bool_decide (path = "/src/foo.go")
  then inl {| pending := content; failure := None |}
  else inr (errorString "no such file or directory").

Definition joinPath (dir path : string) : string := dir +:+ "/" +:+ path.

Definition srcTree : anyWorkingTree :=
  {| Dir := "/src"; VCS := {| Cmd := "git"; Tags := λ _, ([], None) |} |}.

(** A [diff] whose output comes in the reads [reads] and which exits with
    [code]. *)
Definition diffExiting (reads : list bytes) (code : Z) (name : string)
    (args : list string) : ProcessResult :=
  Waited reads (exit_code code).

(** A command that does not start and says how it was called. *)
Definition echoCommand (name : string) (args : list string) : ProcessResult :=
  NotStarted (name +:+ String.concat "" ((λ a, " " +:+ a) <$> args)).


(** ** [NewWorkingTree] and [Close]

    The file system is seen through the temporary directories it holds:
    [ioutil.TempDir] adds one under the name the system picks, or fails, and
    [os.RemoveAll] takes one away, or fails. *)
Record FileSystem := {
  dirs : gset string;
  tempName : gset string → string + error;
  undeletable : string → option error;
}.

(** [ioutil.TempDir("", "retrodep.")]. *)
Definition TempDir (fs : FileSystem) : FileSystem * (string * option error) :=
  match tempName fs (dirs fs) with
  | inl dir =>
      ({| dirs := dirs fs ∪ {[dir]}; tempName := tempName fs;
          undeletable := undeletable fs |}, (dir, None))
  | inr e => (fs, ("", Some e))
  end.

(** [os.RemoveAll(path)]. *)
Definition RemoveAll (fs : FileSystem) (path : string) : FileSystem * option error :=
  match undeletable fs path with
  | Some e => (fs, Some e)
  | None =>
      ({| dirs := dirs fs ∖ {[path]}; tempName := tempName fs;
          undeletable := undeletable fs |}, None)
  end.

(** The two implementations of [Hasher] that [NewWorkingTree] chooses from. *)
Inductive Hasher := gitHasher | sha256Hasher.

(** The two implementations of [WorkingTree]: each embeds an
    [anyWorkingTree], whose field [hasher] is kept beside the record. *)
Inductive WorkingTree :=
| gitWorkingTree (wt : anyWorkingTree) (hasher : Hasher)
| hgWorkingTree (wt : anyWorkingTree) (hasher : Hasher).

Definition embedded (w : WorkingTree) : anyWorkingTree :=
  match w with gitWorkingTree wt _ | hgWorkingTree wt _ => wt end.

Definition hasherOf (w : WorkingTree) : Hasher :=
  match w with gitWorkingTree _ h | hgWorkingTree _ h => h end.

(** [vcs.RepoRoot], by the two members [NewWorkingTree] reads. *)
Record RepoRoot := {
  root_VCS : vcs_Cmd;
  Repo : string;
}.

(** [wt.Close()]. *)
Definition Close (fs : FileSystem) (wt : anyWorkingTree) : FileSystem * option error :=
  RemoveAll fs (Dir wt).

(** [wt.TagSync(tag)], by the method of [vcs.Cmd] it hands over to. *)
Definition TagSync (vcs_TagSync : vcs_Cmd → string → string → option error)
    (wt : anyWorkingTree) (tag : string) : option error :=
  vcs_TagSync (VCS wt) (Dir wt) tag.

Section NewWorkingTree.

(** The names [vcsGit] and [vcsHg] are constants of the package declared in
    other files, and [Create] is the method of [vcs.Cmd]. *)
Variables vcsGit vcsHg : string.
Variable vcs_Create : vcs_Cmd → string → string → option error.

(** [NewWorkingTree(project)]: the file system afterwards and the two
    results. *)
Definition NewWorkingTree (fs : FileSystem) (project : RepoRoot)
    : FileSystem * (option WorkingTree * option error) :=
  let '(fs, (dir, err)) := TempDir fs in
  match err with
  | Some e => (fs, (None, Some e))
  | None =>
      match vcs_Create (root_VCS project) dir (Repo project) with
      | Some e =>
          let '(fs, _) := RemoveAll fs dir in
          (fs, (None, Some e))
      | None =>
          let wt := {| Dir := dir; VCS := root_VCS project |} in
          if bool_decide (Cmd (root_VCS project) = vcsGit)
          then (fs, (Some (gitWorkingTree wt gitHasher), None))
          else if bool_decide (Cmd (root_VCS project) = vcsHg)
          then (fs, (Some (hgWorkingTree wt sha256Hasher), None))
          else
            let '(fs, _) := Close fs wt in
            (fs, (None, Some ErrorUnknownVCS))
      end
  end.

End NewWorkingTree.

(** ** Commit times as they are printed *)

(** The date and clock of [t1], read in the location of [t1], come before
    the date and clock of [t2], read in the location of [t2]. Between two
    locations this is not the order of the instants. *)
Definition reads_before (t1 t2 : Time) : Prop :=
  Year t1 < Year t2 ∨ (Year t1 = Year t2 ∧
  (Month t1 < Month t2 ∨ (Month t1 = Month t2 ∧
  (Day t1 < Day t2 ∨ (Day t1 = Day t2 ∧
  (Hour t1 < Hour t2 ∨ (Hour t1 = Hour t2 ∧
  (Minute t1 < Minute t2 ∨ (Minute t1 = Minute t2 ∧
   Second t1 < Second t2))))))))).

(** The times whose year the layout prints in four digits. *)
Definition four_digit_year (t : Time) : Prop := valid_Time t ∧ 0 ≤ Year t ≤ 9999.

(** A checkout with one tag, in which the commit time of the revisions
    starting with [abc] reads one second before that of the others. *)
Definition twoCommits : Describable :=
  {| ReachableTag := λ _, ("v1.2.3", None);
     TimeFromRevision := λ rev,
       if String.prefix "abc" rev then (example_time, None)
       else (mkTime 2019 1 2 3 4 6, None) |}.

(** A sort that reverses the slice before the insertion sort: it places
    elements that compare as equal the other way round. *)
Definition reversingSort : sort.Sorter := λ A less l,
  sort.insertionSort A less (reverse l).

(** A file system with no temporary directory yet, which names the next one
    [/tmp/retrodep.1] and deletes what it is asked to. *)
Definition emptyFS : FileSystem :=
  {| dirs := ∅; tempName := λ _, inl "/tmp/retrodep.1"; undeletable := λ _, None |}.

(** The same file system, but one that cannot delete. *)
Definition stuckFS : FileSystem :=
  {| dirs := ∅; tempName := λ _, inl "/tmp/retrodep.1";
     undeletable := λ _, Some (errorString "permission denied") |}.

(** A project kept in the version control system [cmd]. *)
Definition projectIn (cmd : string) : RepoRoot :=
  {| root_VCS := {| Cmd := cmd; Tags := λ _, ([], None) |};
     Repo := "https://example.com/foo" |}.

(** A [Create] that fails, and one that succeeds. *)
Definition failingCreate (v : vcs_Cmd) (dir repo : string) : option error :=
  Some (errorString "exit status 128").

Definition workingCreate (v : vcs_Cmd) (dir repo : string) : option error := None.

(** A file [/src/foo.go] whose reading fails after the lines [ls] and the
    bytes [last]. *)
Definition brokenFile (ls : list bytes) (last : bytes) (path : string) : Reader + error :=
  if bool_decide (path = "/src/foo.go")
  then inl {| pending := file_of ls last;
              failure := Some (errorString "input/output error") |}
  else inr (errorString "no such file or directory").

(** * Properties *)

(** ** Arithmetic and strings *)

Lemma wrap_int64_small x : min_int64 ≤ x ≤ max_int64 → wrap_int64 x = x.
Proof.
  intros Hx. unfold wrap_int64, min_int64, max_int64 in *.
  rewrite Z.mod_small; lia.
Qed.

Lemma ParseInt_range s v : ParseInt s = inl v → min_int64 ≤ v ≤ max_int64.
Proof.
  unfold ParseInt. intros H.
  destruct (_ || negb _); [discriminate|].
  case_bool_decide as Hr; [|discriminate].
  injection H as <-. exact Hr.
Qed.

Lemma NewVersion_patch_range tag ver :
  semver.NewVersion tag = inl ver → min_int64 ≤ semver.patch ver ≤ max_int64.
Proof.
  unfold semver.NewVersion. intros H.
  destruct (FindStringSubmatch _ _) as [m|]; [|discriminate].
  destruct (ParseInt (semver.group m 1)) as [maj|]; [|discriminate].
  destruct (if bool_decide (semver.group m 2 ≠ "") then _ else _) as [mi|];
    [|discriminate].
  destruct (if bool_decide (semver.group m 3 ≠ "") then _ else _) as [pa|] eqn:Hpa;
    [|discriminate].
  injection H as <-. simpl.
  case_bool_decide.
  - by apply ParseInt_range in Hpa.
  - injection Hpa as <-. unfold min_int64, max_int64. lia.
Qed.

Lemma prefix_substring p s :
  String.prefix p s = true →
  String.substring 0 (String.length p) s = p ∧ (String.length p ≤ String.length s)%nat.
Proof.
  revert s. induction p as [|c p IH]; intros [|c' s]; simpl;
    try discriminate; try (intros _; split; [done|lia]).
  destruct (Ascii.ascii_dec c c') as [->|]; [|discriminate].
  intros H. destruct (IH _ H) as [-> ?]. split; [done|lia].
Qed.

Lemma string_length_app s1 s2 :
  String.length (s1 +:+ s2) = (String.length s1 + String.length s2)%nat.
Proof. induction s1 as [|c s1 IH]; [done|]. change (S (String.length (s1 +:+ s2)) = S (String.length s1 + String.length s2)). by rewrite IH. Qed.

(** The timestamp has 14 digits for the years 0 to 9999. *)
Lemma appendInt_2 x : 0 ≤ x ≤ 99 → String.length (appendInt x 2) = 2%nat.
Proof.
  intros Hx.
  assert (Hall : Forall (λ y, String.length (appendInt y 2) = 2%nat) (seqZ 0 100)).
  { apply (bool_decide_unpack _). vm_compute. exact I. }
  rewrite Forall_forall in Hall. apply Hall, elem_of_seqZ. lia.
Qed.

Lemma appendInt_4 x : 0 ≤ x ≤ 9999 → String.length (appendInt x 4) = 4%nat.
Proof.
  intros Hx.
  assert (Hall : Forall (λ y, String.length (appendInt y 4) = 4%nat) (seqZ 0 10000)).
  { apply (bool_decide_unpack _). vm_compute. exact I. }
  rewrite Forall_forall in Hall. apply Hall, elem_of_seqZ. lia.
Qed.

Lemma Format_length t :
  valid_Time t → 0 ≤ Year t ≤ 9999 → String.length (Format t) = 14%nat.
Proof.
  intros (Hmo & Hd & Hh & Hmi & Hs) Hy. unfold Format.
  rewrite !string_length_app.
  rewrite appendInt_4 by lia. rewrite !appendInt_2 by lia. done.
Qed.

Lemma string_app_nil_r s : s +:+ "" = s.
Proof.
  induction s as [|c s IH]; [done|].
  change (String c (s +:+ "") = String c s). by rewrite IH.
Qed.

Lemma string_app_assoc s1 s2 s3 : (s1 +:+ s2) +:+ s3 = s1 +:+ s2 +:+ s3.
Proof.
  induction s1 as [|c s1 IH]; [done|].
  change (String c ((s1 +:+ s2) +:+ s3) = String c (s1 +:+ s2 +:+ s3)).
  by rewrite IH.
Qed.

(** ** [PseudoVersion] *)

Lemma String_IncPatch ver :
  semver.Prerelease ver = "" →
  semver.String (semver.IncPatch ver) =
    itoa (semver.major ver) +:+ "." +:+ itoa (semver.minor ver) +:+ "."
    +:+ itoa (wrap_int64 (semver.patch ver + 1)).
Proof.
  unfold semver.Prerelease, semver.IncPatch, semver.String. intros ->.
  rewrite (bool_decide_false ("" ≠ "")) by (intros H; by apply H). cbn.
  rewrite (bool_decide_false ("" ≠ "")) by (intros H; by apply H).
  change ("" +:+ "") with "". by rewrite string_app_nil_r.
Qed.

Lemma IncPatch_patch ver :
  semver.Prerelease ver = "" →
  min_int64 ≤ semver.patch ver < max_int64 →
  semver.patch (semver.IncPatch ver) = semver.patch ver + 1.
Proof.
  unfold semver.Prerelease, semver.IncPatch. intros -> Hr.
  rewrite (bool_decide_false ("" ≠ "")) by (intros H; by apply H). cbn.
  apply wrap_int64_small. unfold min_int64, max_int64 in *. lia.
Qed.

(** The four ways through [PseudoVersion] that end in a version string. *)
Section PseudoVersion_branches.

Variables (d : Describable) (rev : string) (t : Time).
Hypothesis Htime : TimeFromRevision d rev = (t, None).
Hypothesis Hlen : (12 ≤ String.length rev)%nat.

Lemma PseudoVersion_not_found tag :
  ReachableTag d rev = (tag, Some ErrorVersionNotFound) →
  PseudoVersion d rev =
    Returns ("v0.0.0" +:+ "-0." +:+ Format t +:+ "-" +:+ String.substring 0 12 rev, None).
Proof.
  intros Htag. unfold PseudoVersion. rewrite Htag, Htime.
  rewrite bool_decide_true by done. by rewrite bool_decide_true by done.
Qed.

Lemma PseudoVersion_unparsed tag e :
  ReachableTag d rev = (tag, None) →
  semver.NewVersion tag = inr e →
  PseudoVersion d rev =
    Returns (tag +:+ "-1." +:+ Format t +:+ "-" +:+ String.substring 0 12 rev, None).
Proof.
  intros Htag Hparse. unfold PseudoVersion. rewrite Htag, Htime, Hparse.
  rewrite bool_decide_false by done. by rewrite bool_decide_true by done.
Qed.

Lemma PseudoVersion_release tag ver :
  ReachableTag d rev = (tag, None) →
  semver.NewVersion tag = inl ver →
  semver.Prerelease ver = "" →
  PseudoVersion d rev =
    Returns (("v" +:+ semver.String (semver.IncPatch ver)) +:+ "-0." +:+ Format t
             +:+ "-" +:+ String.substring 0 12 rev, None).
Proof.
  intros Htag Hparse Hpre. unfold PseudoVersion. rewrite Htag, Htime, Hparse.
  rewrite bool_decide_false by done. rewrite (bool_decide_true _ Hpre).
  by rewrite bool_decide_true by done.
Qed.

Lemma PseudoVersion_prerelease tag ver :
  ReachableTag d rev = (tag, None) →
  semver.NewVersion tag = inl ver →
  semver.Prerelease ver ≠ "" →
  PseudoVersion d rev =
    Returns (("v" +:+ semver.String ver) +:+ ".0." +:+ Format t
             +:+ "-" +:+ String.substring 0 12 rev, None).
Proof.
  intros Htag Hparse Hpre. unfold PseudoVersion. rewrite Htag, Htime, Hparse.
  rewrite bool_decide_false by done. rewrite (bool_decide_false _ Hpre).
  by rewrite bool_decide_true by done.
Qed.

End PseudoVersion_branches.

(** What [PseudoVersion] does with a revision shorter than 12 bytes once
    both queries have answered. *)
Lemma PseudoVersion_short d rev :
  (snd (ReachableTag d rev) = None ∨
   snd (ReachableTag d rev) = Some ErrorVersionNotFound) →
  snd (TimeFromRevision d rev) = None →
  (String.length rev < 12)%nat →
  PseudoVersion d rev = Panics "slice bounds out of range".
Proof.
  intros Htag Htime Hlen. unfold PseudoVersion.
  destruct (ReachableTag d rev) as [tag err].
  destruct (TimeFromRevision d rev) as [t terr]. simpl in Htag, Htime. subst terr.
  assert (Hshort : bool_decide (12 ≤ String.length rev)%nat = false)
    by (apply bool_decide_false; lia).
  destruct Htag as [-> | ->].
  - rewrite bool_decide_false by done.
    destruct (semver.NewVersion tag) as [ver|e];
      [destruct (bool_decide (semver.Prerelease ver = ""))|]; simpl;
      by rewrite Hshort.
  - rewrite bool_decide_true by done. by rewrite Hshort.
Qed.

Lemma PseudoVersion_long d rev :
  (12 ≤ String.length rev)%nat →
  ∃ r, PseudoVersion d rev = Returns r ∧
    ((snd (ReachableTag d rev) = None ∨
      snd (ReachableTag d rev) = Some ErrorVersionNotFound) →
     snd (TimeFromRevision d rev) = None →
     ∃ base, r = (base +:+ "-" +:+ String.substring 0 12 rev, None)).
Proof.
  intros Hlen. unfold PseudoVersion.
  destruct (ReachableTag d rev) as [tag err].
  destruct (TimeFromRevision d rev) as [t terr]. simpl.
  assert (Hlong : bool_decide (12 ≤ String.length rev)%nat = true)
    by (by apply bool_decide_true).
  assert (Hassoc : ∀ a b c e : string, a +:+ b +:+ c +:+ e = (a +:+ b +:+ c) +:+ e).
  { intros a b c e. by rewrite !string_app_assoc. }
  destruct (decide (err = Some ErrorVersionNotFound)) as [->|Hnf].
  - rewrite bool_decide_true by done.
    destruct terr as [e|]; [eexists; split; [done|]; intros _ [=]|].
    rewrite Hlong. eexists; split; [done|]. intros _ _. eexists. by rewrite Hassoc.
  - rewrite bool_decide_false by done. destruct err as [e|].
    { eexists; split; [done|]. intros [[=] | [= ->]] _. done. }
    destruct (semver.NewVersion tag) as [ver|e];
      [destruct (bool_decide (semver.Prerelease ver = ""))|]; simpl;
      (destruct terr as [e'|]; [eexists; split; [done|]; intros _ [=]|]);
      rewrite Hlong; (eexists; split; [done|]); intros _ _; eexists;
      by rewrite Hassoc.
Qed.

(** C1: when the reachable tag parses as a semantic version without a
    prerelease, the commit time is known and the revision has its 12
    bytes, [PseudoVersion] returns ["v"], the version with its patch number
    one higher (counted in [int64]; metadata dropped), ["-0."], the
    timestamp (14 digits for the years 0 to 9999), ["-"] and [rev[:12]].
    Tag [v1.2.3] at 2019-01-02T03:04:05Z on a revision starting
    [abcdef012345] gives [v1.2.4-0.20190102030405-abcdef012345]. *)
Theorem PseudoVersion_release_tag :
  (∀ d rev tag ver t,
     ReachableTag d rev = (tag, None) →
     semver.NewVersion tag = inl ver →
     semver.Prerelease ver = "" →
     TimeFromRevision d rev = (t, None) →
     (12 ≤ String.length rev)%nat →
     PseudoVersion d rev =
       Returns (("v" +:+ semver.String (semver.IncPatch ver)) +:+ "-0." +:+ Format t
                +:+ "-" +:+ String.substring 0 12 rev, None)
     ∧ semver.String (semver.IncPatch ver) =
         itoa (semver.major ver) +:+ "." +:+ itoa (semver.minor ver) +:+ "."
         +:+ itoa (semver.patch (semver.IncPatch ver))
     ∧ (semver.patch ver < max_int64 →
        semver.patch (semver.IncPatch ver) = semver.patch ver + 1)
     ∧ (valid_Time t → 0 ≤ Year t ≤ 9999 → String.length (Format t) = 14%nat))
  ∧ (∀ d rev,
       ReachableTag d rev = ("v1.2.3", None) →
       TimeFromRevision d rev = (example_time, None) →
       String.prefix "abcdef012345" rev = true →
       PseudoVersion d rev = Returns ("v1.2.4-0.20190102030405-abcdef012345", None)).
Proof.
  split.
  - intros d rev tag ver t Htag Hparse Hpre Htime Hlen. repeat split.
    + by eapply PseudoVersion_release.
    + rewrite String_IncPatch by done. do 4 f_equal.
      unfold semver.IncPatch. unfold semver.Prerelease in Hpre. rewrite Hpre.
      by rewrite (bool_decide_false ("" ≠ "")) by (intros H; by apply H).
    + intros Hmax. apply IncPatch_patch; [done|].
      apply NewVersion_patch_range in Hparse. lia.
    + apply Format_length.
  - intros d rev Htag Htime Hpref.
    destruct (prefix_substring _ _ Hpref) as [Hsub Hlen]. simpl in Hsub, Hlen.
    rewrite (PseudoVersion_release d rev example_time Htime Hlen "v1.2.3"
               (semver.mkVersion 1 2 3 "" "" "v1.2.3") Htag); [|by vm_compute..].
    rewrite Hsub. by vm_compute.
Qed.

Lemma PseudoVersion_release_tag_witness :
  PseudoVersion (fixedDescribable ("v1.2.3", None) (example_time, None)) example_rev
  = Returns ("v1.2.4-0.20190102030405-abcdef012345", None).
Proof.
  apply (proj2 PseudoVersion_release_tag); reflexivity.
Defined.

(** C2: when the reachable tag parses as a semantic version that has a
    prerelease, [PseudoVersion] keeps the version as parsed and uses the
    suffix [".0."]. Tag [v1.2.3-beta] at 2019-01-02T03:04:05Z on a revision
    starting [abcdef012345] gives
    [v1.2.3-beta.0.20190102030405-abcdef012345]. *)
Theorem PseudoVersion_prerelease_tag :
  (∀ d rev tag ver t,
     ReachableTag d rev = (tag, None) →
     semver.NewVersion tag = inl ver →
     semver.Prerelease ver ≠ "" →
     TimeFromRevision d rev = (t, None) →
     (12 ≤ String.length rev)%nat →
     PseudoVersion d rev =
       Returns (("v" +:+ semver.String ver) +:+ ".0." +:+ Format t
                +:+ "-" +:+ String.substring 0 12 rev, None))
  ∧ (∀ d rev,
       ReachableTag d rev = ("v1.2.3-beta", None) →
       TimeFromRevision d rev = (example_time, None) →
       String.prefix "abcdef012345" rev = true →
       PseudoVersion d rev =
         Returns ("v1.2.3-beta.0.20190102030405-abcdef012345", None)).
Proof.
  split.
  - intros d rev tag ver t Htag Hparse Hpre Htime Hlen.
    by eapply PseudoVersion_prerelease.
  - intros d rev Htag Htime Hpref.
    destruct (prefix_substring _ _ Hpref) as [Hsub Hlen]. simpl in Hsub, Hlen.
    rewrite (PseudoVersion_prerelease d rev example_time Htime Hlen "v1.2.3-beta"
               (semver.mkVersion 1 2 3 "beta" "" "v1.2.3-beta") Htag);
      [|by vm_compute..].
    rewrite Hsub. by vm_compute.
Qed.

Lemma PseudoVersion_prerelease_tag_witness :
  PseudoVersion (fixedDescribable ("v1.2.3-beta", None) (example_time, None)) example_rev
  = Returns ("v1.2.3-beta.0.20190102030405-abcdef012345", None).
Proof.
  apply (proj2 PseudoVersion_prerelease_tag); reflexivity.
Defined.

(** C3: when [ReachableTag] answers [ErrorVersionNotFound], [PseudoVersion]
    goes on with the base [v0.0.0] and the suffix ["-0."] and returns no
    error. At 2019-01-02T03:04:05Z on a revision starting [abcdef012345]
    the result is [v0.0.0-0.20190102030405-abcdef012345]. *)
Theorem PseudoVersion_no_reachable_tag :
  (∀ d rev tag t,
     ReachableTag d rev = (tag, Some ErrorVersionNotFound) →
     TimeFromRevision d rev = (t, None) →
     (12 ≤ String.length rev)%nat →
     PseudoVersion d rev =
       Returns ("v0.0.0" +:+ "-0." +:+ Format t +:+ "-" +:+ String.substring 0 12 rev,
                None))
  ∧ (∀ d rev tag,
       ReachableTag d rev = (tag, Some ErrorVersionNotFound) →
       TimeFromRevision d rev = (example_time, None) →
       String.prefix "abcdef012345" rev = true →
       PseudoVersion d rev = Returns ("v0.0.0-0.20190102030405-abcdef012345", None)).
Proof.
  split.
  - intros d rev tag t Htag Htime Hlen. by eapply PseudoVersion_not_found.
  - intros d rev tag Htag Htime Hpref.
    destruct (prefix_substring _ _ Hpref) as [Hsub Hlen]. simpl in Hsub, Hlen.
    rewrite (PseudoVersion_not_found d rev example_time Htime Hlen tag Htag).
    rewrite Hsub. by vm_compute.
Qed.

Lemma PseudoVersion_no_reachable_tag_witness :
  PseudoVersion (fixedDescribable ("", Some ErrorVersionNotFound) (example_time, None))
    example_rev
  = Returns ("v0.0.0-0.20190102030405-abcdef012345", None).
Proof.
  apply (proj2 PseudoVersion_no_reachable_tag _ _ ""); reflexivity.
Defined.

(** C4: when the reachable tag does not parse as a semantic version,
    [PseudoVersion] uses the tag's text as the base and the suffix ["-1."].
    The tag [legacy-tag-1] does not parse, and gives [legacy-tag-1],
    ["-1."], the timestamp, ["-"] and [rev[:12]]. *)
Theorem PseudoVersion_unparsed_tag :
  (∀ d rev tag e t,
     ReachableTag d rev = (tag, None) →
     semver.NewVersion tag = inr e →
     TimeFromRevision d rev = (t, None) →
     (12 ≤ String.length rev)%nat →
     PseudoVersion d rev =
       Returns (tag +:+ "-1." +:+ Format t +:+ "-" +:+ String.substring 0 12 rev, None))
  ∧ semver.NewVersion "legacy-tag-1" = inr ErrInvalidSemVer
  ∧ (∀ d rev t,
       ReachableTag d rev = ("legacy-tag-1", None) →
       TimeFromRevision d rev = (t, None) →
       (12 ≤ String.length rev)%nat →
       PseudoVersion d rev =
         Returns ("legacy-tag-1" +:+ "-1." +:+ Format t +:+ "-"
                  +:+ String.substring 0 12 rev, None)).
Proof.
  split; [|split].
  - intros d rev tag e t Htag Hparse Htime Hlen. by eapply PseudoVersion_unparsed.
  - by vm_compute.
  - intros d rev t Htag Htime Hlen.
    eapply PseudoVersion_unparsed; [done..|]. by vm_compute.
Qed.

Lemma PseudoVersion_unparsed_tag_witness :
  PseudoVersion (fixedDescribable ("legacy-tag-1", None) (example_time, None)) example_rev
  = Returns ("legacy-tag-1-1.20190102030405-abcdef012345", None).
Proof.
  assert (Hlen : (12 ≤ String.length example_rev)%nat) by (vm_compute; lia).
  exact (proj2 (proj2 PseudoVersion_unparsed_tag)
           (fixedDescribable ("legacy-tag-1", None) (example_time, None))
           example_rev example_time eq_refl eq_refl Hlen).
Defined.

(** [String] reads every field but [original]. *)
Lemma String_fields v1 v2 :
  semver.major v1 = semver.major v2 → semver.minor v1 = semver.minor v2 →
  semver.patch v1 = semver.patch v2 → semver.pre v1 = semver.pre v2 →
  semver.metadata v1 = semver.metadata v2 →
  semver.String v1 = semver.String v2 ∧
  semver.String (semver.IncPatch v1) = semver.String (semver.IncPatch v2).
Proof.
  destruct v1, v2; simpl. intros -> -> -> -> ->. split; [done|].
  unfold semver.IncPatch; simpl. by case_bool_decide.
Qed.

(** C9: once the reachable-tag query has answered (with a tag or with
    [ErrorVersionNotFound]) and the commit-time query has answered,
    [PseudoVersion] slices [rev[:12]]: a revision of fewer than 12 bytes
    makes it panic, and a revision of at least 12 bytes never does, the
    result then ending in ["-"] and those 12 bytes. *)
Theorem PseudoVersion_revision_prefix :
  (∀ d rev,
     (snd (ReachableTag d rev) = None ∨
      snd (ReachableTag d rev) = Some ErrorVersionNotFound) →
     snd (TimeFromRevision d rev) = None →
     (String.length rev < 12)%nat →
     PseudoVersion d rev = Panics "slice bounds out of range")
  ∧ (∀ d rev,
       (12 ≤ String.length rev)%nat →
       ∃ r, PseudoVersion d rev = Returns r ∧
         ((snd (ReachableTag d rev) = None ∨
           snd (ReachableTag d rev) = Some ErrorVersionNotFound) →
          snd (TimeFromRevision d rev) = None →
          ∃ base, r = (base +:+ "-" +:+ String.substring 0 12 rev, None))).
Proof.
  split.
  - apply PseudoVersion_short.
  - apply PseudoVersion_long.
Qed.

Lemma PseudoVersion_revision_prefix_witness :
  PseudoVersion (fixedDescribable ("v1.2.3", None) (example_time, None)) "abcdef01234"
  = Panics "slice bounds out of range".
Proof.
  apply (proj1 PseudoVersion_revision_prefix); [by left | done | vm_compute; lia].
Defined.

(** C10: for a reachable tag that parses, the base is ["v"] followed by
    [String] of the parsed version (patch-incremented when it has no
    prerelease), whatever the tag's spelling: two tags that parse to the
    same numbers, prerelease and metadata give the same pseudo-version, and
    the tags [1.2.3] and [v1.2.3] both give the base [v1.2.4]. *)
Theorem PseudoVersion_base_normalized :
  (∀ d rev tag ver t,
     ReachableTag d rev = (tag, None) →
     semver.NewVersion tag = inl ver →
     TimeFromRevision d rev = (t, None) →
     (12 ≤ String.length rev)%nat →
     ∃ suffix,
       PseudoVersion d rev =
         Returns (("v" +:+ semver.String
                     (if bool_decide (semver.Prerelease ver = "")
                      then semver.IncPatch ver else ver))
                  +:+ suffix +:+ Format t +:+ "-" +:+ String.substring 0 12 rev, None))
  ∧ (∀ d1 d2 rev tag1 tag2 v1 v2 t,
       ReachableTag d1 rev = (tag1, None) → ReachableTag d2 rev = (tag2, None) →
       semver.NewVersion tag1 = inl v1 → semver.NewVersion tag2 = inl v2 →
       semver.major v1 = semver.major v2 → semver.minor v1 = semver.minor v2 →
       semver.patch v1 = semver.patch v2 → semver.pre v1 = semver.pre v2 →
       semver.metadata v1 = semver.metadata v2 →
       TimeFromRevision d1 rev = (t, None) → TimeFromRevision d2 rev = (t, None) →
       PseudoVersion d1 rev = PseudoVersion d2 rev)
  ∧ (∀ d rev t,
       (ReachableTag d rev = ("1.2.3", None) ∨ ReachableTag d rev = ("v1.2.3", None)) →
       TimeFromRevision d rev = (t, None) →
       (12 ≤ String.length rev)%nat →
       PseudoVersion d rev =
         Returns ("v1.2.4" +:+ "-0." +:+ Format t +:+ "-" +:+ String.substring 0 12 rev,
                  None)).
Proof.
  split; [|split].
  - intros d rev tag ver t Htag Hparse Htime Hlen.
    case_bool_decide as Hpre.
    + exists "-0.". by eapply PseudoVersion_release.
    + exists ".0.". by eapply PseudoVersion_prerelease.
  - intros d1 d2 rev tag1 tag2 v1 v2 t Ht1 Ht2 Hp1 Hp2 Hma Hmi Hpa Hpre Hme Htm1 Htm2.
    destruct (String_fields v1 v2 Hma Hmi Hpa Hpre Hme) as [HS HI].
    unfold PseudoVersion. rewrite Ht1, Ht2, Hp1, Hp2, Htm1, Htm2.
    unfold semver.Prerelease. by rewrite HS, HI, Hpre.
  - intros d rev t [Htag|Htag] Htime Hlen.
    + by rewrite (PseudoVersion_release d rev t Htime Hlen "1.2.3"
                    (semver.mkVersion 1 2 3 "" "" "1.2.3") Htag) by (by vm_compute).
    + by rewrite (PseudoVersion_release d rev t Htime Hlen "v1.2.3"
                    (semver.mkVersion 1 2 3 "" "" "v1.2.3") Htag) by (by vm_compute).
Qed.

Lemma PseudoVersion_base_normalized_witness :
  PseudoVersion (fixedDescribable ("1.2.3", None) (example_time, None)) example_rev
  = Returns ("v1.2.4-0.20190102030405-abcdef012345", None).
Proof.
  assert (Hlen : (12 ≤ String.length example_rev)%nat) by (vm_compute; lia).
  exact (proj2 (proj2 PseudoVersion_base_normalized)
           (fixedDescribable ("1.2.3", None) (example_time, None))
           example_rev example_time (or_introl eq_refl) eq_refl Hlen).
Defined.

(** ** [sort.Sort] and the insertion sort *)

Lemma insert_left_Permutation {A} (less : A → A → bool) x r :
  sort.insert_left less x r ≡ₚ x :: r.
Proof.
  induction r as [|y r IH]; simpl; [done|].
  destruct (less x y); [|done]. rewrite IH. apply Permutation_swap.
Qed.

Lemma insertion_fold_Permutation {A} (less : A → A → bool) l acc :
  fold_left (λ rprefix x, sort.insert_left less x rprefix) l acc ≡ₚ l ++ acc.
Proof.
  revert acc. induction l as [|x l IH]; intros acc; simpl; [done|].
  rewrite IH, insert_left_Permutation. by rewrite Permutation_middle.
Qed.

Lemma insert_left_sorted {A} (less : A → A → bool) (dom : list A) x r :
  sort.consistent_on less dom → x ∈ dom → r ⊆ dom →
  StronglySorted (λ a b, less a b = false) r →
  StronglySorted (λ a b, less a b = false) (sort.insert_left less x r).
Proof.
  intros [Hasym Hneg] Hx. induction r as [|y r IH]; intros Hr Hs; simpl.
  { repeat constructor. }
  apply StronglySorted_cons in Hs as [Hy Hs].
  assert (y ∈ dom) as Hyd by (apply Hr; left).
  assert (r ⊆ dom) as Hrd by (intros z Hz; apply Hr; by right).
  destruct (less x y) eqn:Hxy.
  - apply StronglySorted_cons. split; [|by apply IH].
    rewrite insert_left_Permutation. constructor; [|done]. by apply Hasym.
  - apply StronglySorted_cons. split; [|by apply StronglySorted_cons].
    constructor; [done|]. rewrite Forall_forall in Hy |- *.
    intros z Hz. apply (Hneg x y z); auto.
Qed.

Lemma StronglySorted_reverse_flip {A} (R : A → A → Prop) l :
  StronglySorted R l → StronglySorted (flip R) (reverse l).
Proof.
  induction 1 as [|x l Hs IH Hx]; [constructor|].
  rewrite reverse_cons. apply StronglySorted_app. split_and!.
  - intros a b Ha Hb. apply list_elem_of_singleton in Hb as ->.
    rewrite Forall_forall in Hx. unfold flip. apply Hx.
    by rewrite <- elem_of_reverse.
  - exact IH.
  - apply SSorted_cons; constructor.
Qed.

Lemma insertion_fold_sorted {A} (less : A → A → bool) (dom : list A) l acc :
  sort.consistent_on less dom → l ⊆ dom → acc ⊆ dom →
  StronglySorted (λ a b, less a b = false) acc →
  StronglySorted (λ a b, less a b = false)
    (fold_left (λ rprefix x, sort.insert_left less x rprefix) l acc).
Proof.
  intros Hc. revert acc. induction l as [|x l IH]; intros acc Hl Hacc Hs; simpl; [done|].
  assert (x ∈ dom) as Hx by (apply Hl; left).
  apply IH.
  - intros z Hz. apply Hl. by right.
  - intros z Hz. rewrite insert_left_Permutation in Hz.
    apply elem_of_cons in Hz as [->|Hz]; auto.
  - by eapply insert_left_sorted.
Qed.

Lemma insertionSort_sorts : sort.sorts sort.insertionSort.
Proof.
  split.
  - intros A less l. unfold sort.insertionSort.
    rewrite reverse_Permutation, insertion_fold_Permutation. by rewrite app_nil_r.
  - intros A less l Hc. unfold sort.insertionSort, sort.ordered.
    apply (StronglySorted_reverse_flip (λ a b, less a b = false)).
    eapply insertion_fold_sorted; [done|done|set_solver|constructor].
Qed.

(** ** [VersionTags] *)

Lemma parsedTags_parse tags tag ver :
  (tag, ver) ∈ parsedTags tags → semver.NewVersion tag = inl ver.
Proof.
  unfold parsedTags. rewrite list_elem_of_omap. intros (t & _ & Ht).
  destruct (semver.NewVersion t) eqn:Hp; by simplify_eq.
Qed.

Lemma parsedTags_filter tags : (parsedTags tags).*1 = filter (λ tag, parses tag = true) tags.
Proof.
  unfold parsedTags, parses. induction tags as [|tag tags IH]; [done|].
  rewrite filter_cons. simpl. destruct (semver.NewVersion tag); simpl;
    [f_equal|]; exact IH.
Qed.

Lemma tagStep_inv st ps tag :
  tagInv st ps → tagInv (tagStep st tag) (ps ++ parsedTags [tag]).
Proof.
  intros (Hh & Hv & Ht). unfold tagStep, parsedTags. simpl.
  destruct (semver.NewVersion tag) as [ver|e]; simpl.
  2:{ by rewrite app_nil_r. }
  assert (length (heap st) = length ps) as Hn by (by rewrite Hh, length_fmap).
  split_and!; simpl.
  - by rewrite Hh, fmap_app.
  - rewrite Hv, Hn, length_app. simpl. rewrite Nat.add_1_r. by rewrite seq_S.
  - intros i. rewrite fmap_app. simpl. rewrite Hn.
    destruct (decide (i = length ps)) as [->|Hne].
    + rewrite lookup_insert_eq. rewrite lookup_app_r by (by rewrite length_fmap).
      by rewrite length_fmap, Nat.sub_diag.
    + rewrite lookup_insert_ne by done. rewrite Ht.
      destruct (decide (i < length ps)%nat).
      * by rewrite lookup_app_l by (by rewrite length_fmap).
      * rewrite !lookup_ge_None_2; [done|..]; rewrite ?length_app, length_fmap; simpl; lia.
Qed.

Lemma parsedTags_cons tag tags :
  parsedTags (tag :: tags) = parsedTags [tag] ++ parsedTags tags.
Proof. unfold parsedTags. simpl. by destruct (semver.NewVersion tag). Qed.

Lemma tagStep_fold_inv tags st ps :
  tagInv st ps → tagInv (fold_left tagStep tags st) (ps ++ parsedTags tags).
Proof.
  revert st ps. induction tags as [|tag tags IH]; intros st ps Hinv.
  { unfold parsedTags. simpl. by rewrite app_nil_r. }
  rewrite parsedTags_cons, app_assoc. cbn [fold_left].
  by apply IH, tagStep_inv.
Qed.

Lemma fmap_lookup_seq (l : list string) :
  (λ i, default "" (l !! i)) <$> seq 0 (length l) = l.
Proof.
  apply list_eq. intros i. rewrite list_lookup_fmap.
  destruct (decide (i < length l)%nat) as [Hi|Hi].
  - rewrite lookup_seq_lt by done. simpl.
    destruct (lookup_lt_is_Some_2 l i Hi) as [x Hx]. by rewrite Hx.
  - rewrite (lookup_ge_None_2 l) by lia.
    rewrite lookup_ge_None_2; [done|]. rewrite length_seq. lia.
Qed.

(** [VersionTags] in closed form: the indices of the parsed tags are
    sorted, then read back as tags. *)
Lemma VersionTags_closed_form Sort cmp wt tags :
  Tags (VCS wt) (Dir wt) = (tags, None) →
  VersionTags Sort cmp wt =
    ((λ v, default "" ((parsedTags tags).*1 !! v)) <$>
       Sort nat (sort.Reverse (Collection_Less cmp (parsedTags tags).*2))
         (seq 0 (length (parsedTags tags))), None).
Proof.
  intros Htags. unfold VersionTags. rewrite Htags.
  destruct (tagStep_fold_inv tags {| heap := []; versions := []; versionTags := ∅ |} [])
    as (Hh & Hv & Ht).
  { split_and!; [done..|]. intros i. simpl. by rewrite lookup_empty. }
  rewrite app_nil_l in Hh, Hv, Ht. rewrite Hh, Hv. f_equal.
  apply list_fmap_ext. intros _ v _. by rewrite Ht.
Qed.

Lemma parsedTags_index tags a :
  (a < length (parsedTags tags))%nat →
  ∃ tag ver, (parsedTags tags).*1 !! a = Some tag ∧
             (parsedTags tags).*2 !! a = Some ver ∧
             (parsedTags tags).*2 !!! a = ver ∧
             semver.NewVersion tag = inl ver.
Proof.
  intros Ha. destruct (lookup_lt_is_Some_2 _ _ Ha) as [[tag ver] Hp].
  exists tag, ver. split_and!.
  - by rewrite list_lookup_fmap, Hp.
  - by rewrite list_lookup_fmap, Hp.
  - apply list_lookup_total_correct. by rewrite list_lookup_fmap, Hp.
  - eapply parsedTags_parse, list_elem_of_lookup_2, Hp.
Qed.

Lemma StronglySorted_fmap_impl {A B} (R : A → A → Prop) (R' : B → B → Prop)
    (f : A → B) l :
  StronglySorted R l →
  (∀ a b, a ∈ l → b ∈ l → R a b → R' (f a) (f b)) →
  StronglySorted R' (f <$> l).
Proof.
  induction 1 as [|x l Hs IH Hx]; intros Himp; [constructor|].
  rewrite fmap_cons. constructor.
  - apply IH. intros a b Ha Hb. apply Himp; by right.
  - rewrite Forall_fmap, Forall_forall. rewrite Forall_forall in Hx.
    intros y Hy. apply Himp; [left|by right|by apply Hx].
Qed.

Lemma StronglySorted_NoDup {A} (R : A → A → Prop) l :
  StronglySorted R l → NoDup l → StronglySorted (λ a b, R a b ∧ a ≠ b) l.
Proof.
  induction 1 as [|x l Hs IH Hx]; intros Hnd; [constructor|].
  apply NoDup_cons in Hnd as [Hx' Hnd]. constructor; [by apply IH|].
  rewrite Forall_forall in Hx |- *. intros y Hy. split; [by apply Hx|].
  intros ->. done.
Qed.

Lemma Reverse_consistent {A} (less : A → A → bool) l :
  sort.consistent_on less l → sort.consistent_on (sort.Reverse less) l.
Proof.
  intros [Hasym Hneg]. unfold sort.Reverse. split.
  - intros a b Ha Hb. by apply Hasym.
  - intros a b c Ha Hb Hc H1 H2. by apply (Hneg c b a).
Qed.

Lemma VersionTags_spec Sort cmp wt tags :
  sort.sorts Sort →
  Tags (VCS wt) (Dir wt) = (tags, None) →
  ∃ out, VersionTags Sort cmp wt = (out, None) ∧
    out ≡ₚ filter (λ tag, parses tag = true) tags ∧
    (sort.consistent_on (semver.LessThan cmp) (parsedTags tags).*2 →
       StronglySorted (not_below cmp) out ∧
       (untied cmp (parsedTags tags).*2 → StronglySorted (above cmp) out)).
Proof.
  intros [Hperm Hord] Htags. eexists. split; [by apply VersionTags_closed_form|].
  set (ps := parsedTags tags).
  set (L := sort.Reverse (Collection_Less cmp ps.*2)).
  specialize (Hperm nat L (seq 0 (length ps))).
  assert (Hin : ∀ a, a ∈ Sort nat L (seq 0 (length ps)) → (a < length ps)%nat).
  { intros a Ha. rewrite Hperm in Ha. apply elem_of_seq in Ha. lia. }
  split.
  { rewrite Hperm. rewrite <- (length_fmap fst ps), fmap_lookup_seq.
    unfold ps. by rewrite parsedTags_filter. }
  intros Hcons.
  assert (HcL : sort.consistent_on L (seq 0 (length ps))).
  { apply Reverse_consistent. destruct Hcons as [Hasym Hneg].
    assert (Hel : ∀ a, a ∈ seq 0 (length ps) → ps.*2 !!! a ∈ ps.*2).
    { intros a Ha. apply elem_of_seq in Ha.
      apply list_elem_of_lookup_total_2. rewrite length_fmap. lia. }
    unfold Collection_Less. split.
    - intros a b Ha Hb. apply Hasym; auto.
    - intros a b c Ha Hb Hc. apply Hneg; auto. }
  specialize (Hord nat L _ HcL). unfold sort.ordered in Hord.
  split.
  - eapply StronglySorted_fmap_impl; [exact Hord|].
    intros a b Ha Hb Hab va vb Hva Hvb. simpl in Hva, Hvb.
    destruct (parsedTags_index tags a (Hin a Ha)) as (ta & ra & Hta & _ & Hra & Hpa).
    destruct (parsedTags_index tags b (Hin b Hb)) as (tb & rb & Htb & _ & Hrb & Hpb).
    fold ps in Hta, Htb, Hra, Hrb. rewrite Hta in Hva. rewrite Htb in Hvb.
    simpl in Hva, Hvb. rewrite Hpa in Hva. rewrite Hpb in Hvb.
    injection Hva as <-. injection Hvb as <-.
    unfold L, sort.Reverse, Collection_Less in Hab. by rewrite Hra, Hrb in Hab.
  - intros Hun.
    assert (Hnd : NoDup (Sort nat L (seq 0 (length ps)))).
    { rewrite Hperm. apply NoDup_seq. }
    eapply StronglySorted_fmap_impl; [exact (StronglySorted_NoDup _ _ Hord Hnd)|].
    intros a b Ha Hb [Hab Hne] va vb Hva Hvb. simpl in Hva, Hvb.
    destruct (parsedTags_index tags a (Hin a Ha)) as (ta & ra & Hta & Hla & Hra & Hpa).
    destruct (parsedTags_index tags b (Hin b Hb)) as (tb & rb & Htb & Hlb & Hrb & Hpb).
    fold ps in Hta, Htb, Hra, Hrb, Hla, Hlb. rewrite Hta in Hva. rewrite Htb in Hvb.
    simpl in Hva, Hvb. rewrite Hpa in Hva. rewrite Hpb in Hvb.
    injection Hva as <-. injection Hvb as <-.
    unfold L, sort.Reverse, Collection_Less in Hab. rewrite Hra, Hrb in Hab.
    destruct (Hun a b ra rb Hne Hla Hlb) as [Hlt|Hlt]; [congruence|done].
Qed.

(** Two versions with the same numbers and no prerelease compare as equal. *)
Lemma LessThan_same_release cmp v o :
  semver.major v = semver.major o → semver.minor v = semver.minor o →
  semver.patch v = semver.patch o → semver.pre v = "" → semver.pre o = "" →
  semver.LessThan cmp v o = false.
Proof.
  intros Hma Hmi Hpa Hpv Hpo.
  unfold semver.LessThan, semver.Compare, semver.compareSegment, semver.Prerelease.
  rewrite Hma, Hmi, Hpa, Hpv, Hpo. apply bool_decide_false.
  repeat (case_bool_decide; try lia; simpl in *); lia.
Qed.

(** Whatever the sort, the tags [v1.0.0] and [1.0.0] come out next to each
    other and neither is above the other. *)
Lemma VersionTags_tie Sort cmp :
  sort.sorts Sort →
  ∃ out, VersionTags Sort cmp (treeWithTags ["v1.0.0"; "1.0.0"]) = (out, None) ∧
         ¬ StronglySorted (above cmp) out.
Proof.
  intros HS.
  destruct (VersionTags_spec Sort cmp (treeWithTags ["v1.0.0"; "1.0.0"])
              ["v1.0.0"; "1.0.0"] HS eq_refl) as (out & Hout & Hperm & _).
  exists out. split; [done|]. intros Hs.
  assert (Hf : filter (λ tag, parses tag = true) ["v1.0.0"; "1.0.0"] = ["v1.0.0"; "1.0.0"])
    by (by vm_compute).
  rewrite Hf in Hperm.
  assert (Hp1 : semver.NewVersion "v1.0.0" = inl (semver.mkVersion 1 0 0 "" "" "v1.0.0"))
    by (by vm_compute).
  assert (Hp2 : semver.NewVersion "1.0.0" = inl (semver.mkVersion 1 0 0 "" "" "1.0.0"))
    by (by vm_compute).
  assert (Hno : ∀ a b, a ∈ ["v1.0.0"; "1.0.0"] → b ∈ ["v1.0.0"; "1.0.0"] → ¬ above cmp a b).
  { intros a b Ha Hb Hab.
    assert (∃ va, semver.NewVersion a = inl va ∧ semver.major va = 1 ∧
                  semver.minor va = 0 ∧ semver.patch va = 0 ∧ semver.pre va = "")
      as (va & Hva & ? & ? & ? & ?).
    { apply elem_of_cons in Ha as [->|Ha];
        [|apply list_elem_of_singleton in Ha as ->];
        eexists; (split; [eassumption|done]). }
    assert (∃ vb, semver.NewVersion b = inl vb ∧ semver.major vb = 1 ∧
                  semver.minor vb = 0 ∧ semver.patch vb = 0 ∧ semver.pre vb = "")
      as (vb & Hvb & ? & ? & ? & ?).
    { apply elem_of_cons in Hb as [->|Hb];
        [|apply list_elem_of_singleton in Hb as ->];
        eexists; (split; [eassumption|done]). }
    specialize (Hab va vb Hva Hvb).
    rewrite LessThan_same_release in Hab by congruence. done. }
  destruct out as [|a [|b out]].
  - by apply Permutation_nil_l in Hperm.
  - apply Permutation_length in Hperm. done.
  - apply StronglySorted_cons in Hs as [Hab _]. apply Forall_cons in Hab as [Hab _].
    apply (Hno a b); [| |done]; rewrite <- Hperm; set_solver.
Qed.

(** Without prereleases, [LessThan] is the order of the three numbers. *)
Lemma LessThan_release cmp v o :
  semver.pre v = "" → semver.pre o = "" →
  semver.LessThan cmp v o = true ↔
    semver.major v < semver.major o ∨
    (semver.major v = semver.major o ∧
     (semver.minor v < semver.minor o ∨
      (semver.minor v = semver.minor o ∧ semver.patch v < semver.patch o))).
Proof.
  intros Hv Ho.
  unfold semver.LessThan, semver.Compare, semver.compareSegment, semver.Prerelease.
  rewrite Hv, Ho, bool_decide_eq_true.
  repeat (case_bool_decide; simpl in *); lia.
Qed.

Lemma release_consistent cmp vs :
  Forall (λ v, semver.pre v = "") vs →
  sort.consistent_on (semver.LessThan cmp) vs.
Proof.
  rewrite Forall_forall. intros Hpre. split.
  - intros a b Ha Hb Hab. apply LessThan_release in Hab; [|by apply Hpre..].
    apply not_true_is_false. intros Hba.
    apply LessThan_release in Hba; [|by apply Hpre..]. lia.
  - intros a b c Ha Hb Hc Hab Hbc. apply not_true_is_false. intros Hac.
    apply LessThan_release in Hac; [|by apply Hpre..].
    apply not_true_iff_false in Hab, Hbc.
    rewrite LessThan_release in Hab, Hbc by (by apply Hpre). lia.
Qed.

(** C5 (as amended): [VersionTags] drops the tags that do not parse and
    returns the others in their original spelling, each as often as
    listed; when [LessThan] is consistent on their versions (as it is when
    none has a prerelease), no tag of the result has a version less than
    that of a later tag, and the order is strict when no two of the
    versions compare as equal; when no tag parses the result is empty, with
    a nil error. *)
Theorem VersionTags_descending Sort cmp wt tags :
  sort.sorts Sort →
  Tags (VCS wt) (Dir wt) = (tags, None) →
  ∃ out, VersionTags Sort cmp wt = (out, None) ∧
    out ≡ₚ filter (λ tag, parses tag = true) tags ∧
    (sort.consistent_on (semver.LessThan cmp) (parsedTags tags).*2 →
       StronglySorted (not_below cmp) out ∧
       (untied cmp (parsedTags tags).*2 → StronglySorted (above cmp) out)) ∧
    (Forall (λ v, semver.pre v = "") (parsedTags tags).*2 →
       StronglySorted (not_below cmp) out) ∧
    (Forall (λ tag, parses tag = false) tags → out = []).
Proof.
  intros HS Htags.
  destruct (VersionTags_spec Sort cmp wt tags HS Htags) as (out & Hout & Hperm & Hord).
  exists out. split_and!; [done..| |].
  { intros Hrel. by apply Hord, release_consistent. }
  intros Hnone. apply Permutation_nil_r. rewrite Hperm.
  clear -Hnone. induction Hnone as [|tag tags Ht _ IH]; [done|].
  rewrite filter_cons. rewrite decide_False by (by rewrite Ht). exact IH.
Qed.

Lemma VersionTags_descending_witness :
  VersionTags sort.insertionSort bytewise
    (treeWithTags ["v1.0.0"; "not-a-version"; "v2.0.0"; "v1.5.0-rc1"])
  = (["v2.0.0"; "v1.5.0-rc1"; "v1.0.0"], None)
  ∧ StronglySorted (above bytewise) ["v2.0.0"; "v1.5.0-rc1"; "v1.0.0"].
Proof.
  destruct (VersionTags_descending sort.insertionSort bytewise
              (treeWithTags ["v1.0.0"; "not-a-version"; "v2.0.0"; "v1.5.0-rc1"])
              ["v1.0.0"; "not-a-version"; "v2.0.0"; "v1.5.0-rc1"]
              insertionSort_sorts eq_refl) as (out & Hout & _ & Hord & _ & _).
  vm_compute in Hout. injection Hout as <-. split; [by vm_compute|].
  apply Hord.
  - split.
    + intros a b Ha Hb. vm_compute in Ha, Hb. set_unfold in Ha. set_unfold in Hb.
      destruct_or!; subst; by vm_compute.
    + intros a b c Ha Hb Hc. vm_compute in Ha, Hb, Hc.
      set_unfold in Ha. set_unfold in Hb. set_unfold in Hc.
      destruct_or!; subst; by vm_compute.
  - intros i j vi vj Hne Hi Hj.
    destruct i as [|[|[|i]]], j as [|[|[|j]]]; try done;
      vm_compute in Hi, Hj; simplify_eq; vm_compute; auto.
Defined.

(** C5 with a strict order does not hold: the tags [v1.0.0] and [1.0.0]
    are both kept, their versions compare as equal, so the result is not
    strictly descending, with the insertion sort as with any other sort. *)
Lemma VersionTags_not_strictly_descending :
  VersionTags sort.insertionSort bytewise (treeWithTags ["v1.0.0"; "1.0.0"])
  = (["v1.0.0"; "1.0.0"], None)
  ∧ ¬ StronglySorted (above bytewise) ["v1.0.0"; "1.0.0"]
  ∧ (∀ Sort cmp, sort.sorts Sort →
       ∃ out, VersionTags Sort cmp (treeWithTags ["v1.0.0"; "1.0.0"]) = (out, None) ∧
              ¬ StronglySorted (above cmp) out).
Proof.
  assert (Hrun : VersionTags sort.insertionSort bytewise (treeWithTags ["v1.0.0"; "1.0.0"])
                 = (["v1.0.0"; "1.0.0"], None)) by (by vm_compute).
  split_and!; [done| |apply VersionTags_tie].
  destruct (VersionTags_tie sort.insertionSort bytewise insertionSort_sorts)
    as (out & Hout & Hns).
  rewrite Hrun in Hout. by injection Hout as <-.
Qed.

(** ** The matcher *)

Import regexp.

(** Whatever [run] finds is a match. *)
Lemma star_loop_denote r fuel :
  (∀ pos s caps k m, run r pos s caps k = Some m →
     ∃ pos' s' caps', denote r pos s caps pos' s' caps' ∧ k pos' s' caps' = Some m) →
  ∀ pos s caps k m, star_loop (run r) fuel pos s caps k = Some m →
    ∃ pos' s' caps', denote (Star r) pos s caps pos' s' caps' ∧ k pos' s' caps' = Some m.
Proof.
  intros Hr. induction fuel as [|fuel IH]; intros pos s caps k m; simpl.
  { intros Hk. eauto using denote_Star_stop. }
  destruct (run r pos s caps _) as [m'|] eqn:Hbody.
  - intros [= ->]. apply Hr in Hbody as (pos1 & s1 & caps1 & Hd & Hk).
    case_decide as Hlt; [|done].
    apply IH in Hk as (pos2 & s2 & caps2 & Hd2 & Hk).
    eauto 10 using denote_Star_more.
  - intros Hk. eauto using denote_Star_stop.
Qed.

Lemma run_denote r :
  ∀ pos s caps k m, run r pos s caps k = Some m →
    ∃ pos' s' caps', denote r pos s caps pos' s' caps' ∧ k pos' s' caps' = Some m.
Proof.
  induction r as [|p|r1 IH1 r2 IH2|r1 IH1 r2 IH2|r IH|i r IH| |];
    intros pos s caps k m; simpl.
  - intros H. exists pos, s, caps. split; [constructor|done].
  - destruct s as [|c s]; [done|]. destruct (p c) eqn:Hp; [|done].
    intros H. exists (S pos), s, caps. split; [by constructor|done].
  - intros H. apply IH1 in H as (pos1 & s1 & caps1 & Hd1 & H).
    apply IH2 in H as (pos2 & s2 & caps2 & Hd2 & H).
    exists pos2, s2, caps2. split; [by eapply denote_Cat|done].
  - destruct (run r1 pos s caps k) as [m'|] eqn:H1.
    + intros [= ->]. apply IH1 in H1 as (pos' & s' & caps' & Hd & H).
      exists pos', s', caps'. split; [by apply denote_Alt_l|done].
    + intros H2. apply IH2 in H2 as (pos' & s' & caps' & Hd & H).
      exists pos', s', caps'. split; [by apply denote_Alt_r|done].
  - by apply star_loop_denote.
  - intros H. apply IH in H as (pos' & s' & caps' & Hd & H).
    eexists _, _, _. split; [by apply denote_Capture|done].
  - case_decide as H0; [|done]. subst pos.
    intros H. exists O, s, caps. split; [constructor|done].
  - destruct s; [|done]. intros H. exists pos, [], caps. split; [constructor|done].
Qed.

Lemma star_loop_S body fuel pos s caps k :
  star_loop body (S fuel) pos s caps k =
  match body pos s caps
          (λ pos' s' caps',
             if decide (length s' < length s)%nat
             then star_loop body fuel pos' s' caps' k else None) with
  | Some m => Some m
  | None => k pos s caps
  end.
Proof. done. Qed.

Lemma run_Class_cons p c s pos caps k :
  run (Class p) pos (c :: s) caps k = if p c then k (S pos) s caps else None.
Proof. done. Qed.

(** A greedy run of a class takes all the bytes of the class there are. *)
Lemma star_loop_class p w s fuel pos caps k m :
  all_of p w → stops p s → (length w ≤ fuel)%nat →
  k (pos + length w)%nat s caps = Some m →
  star_loop (run (Class p)) fuel pos (w ++ s) caps k = Some m.
Proof.
  intros Hw Hs. revert fuel pos. induction Hw as [|c w Hc Hw IH]; intros fuel pos Hf Hk.
  - rewrite Nat.add_0_r in Hk. destruct fuel as [|fuel]; [done|].
    rewrite star_loop_S, app_nil_l. destruct s as [|c s].
    + change (run (Class p) pos [] caps) with (λ _ : cont, @None captures).
      by rewrite Hk.
    + rewrite run_Class_cons. simpl in Hs. rewrite Hs. by rewrite Hk.
  - destruct fuel as [|fuel]; simpl in Hf; [lia|].
    rewrite star_loop_S. rewrite <- app_comm_cons, run_Class_cons, Hc.
    rewrite decide_True by (simpl; lia).
    rewrite (IH fuel (S pos)); [done|lia|].
    by replace (S pos + length w)%nat with (pos + length (c :: w))%nat by (simpl; lia).
Qed.

Lemma run_star_class p w s pos caps k m :
  all_of p w → stops p s →
  k (pos + length w)%nat s caps = Some m →
  run (Star (Class p)) pos (w ++ s) caps k = Some m.
Proof.
  intros Hw Hs Hk. simpl. apply star_loop_class; [done..| |done].
  rewrite length_app. lia.
Qed.

Lemma run_plus_class p w s pos caps k m :
  w ≠ [] → all_of p w → stops p s →
  k (pos + length w)%nat s caps = Some m →
  run (Plus (Class p)) pos (w ++ s) caps k = Some m.
Proof.
  intros Hne Hw Hs Hk. destruct w as [|c w]; [done|].
  apply Forall_cons in Hw as [Hc Hw].
  change (run (Class p) pos (c :: w ++ s) caps
            (λ pos' s' caps', run (Star (Class p)) pos' s' caps' k) = Some m).
  rewrite run_Class_cons, Hc. apply run_star_class; [done..|].
  by replace (S pos + length w)%nat with (pos + length (c :: w))%nat by (simpl; lia).
Qed.

Lemma run_Literal lit s pos caps k :
  run (Literal lit) pos (lit ++ s) caps k = k (pos + length lit)%nat s caps.
Proof.
  revert pos. induction lit as [|c lit IH]; intros pos; simpl.
  { by rewrite Nat.add_0_r. }
  rewrite bool_decide_true by done. rewrite IH. f_equal. lia.
Qed.

Lemma run_Cat r1 r2 pos s caps k :
  run (Cat r1 r2) pos s caps k =
  run r1 pos s caps (λ pos' s' caps', run r2 pos' s' caps' k).
Proof. done. Qed.

Lemma stops_app p w s :
  w ≠ [] → Forall (λ c, p c = false) w → stops p (w ++ s).
Proof. intros Hne Hw. destruct w; [done|]. by apply Forall_cons in Hw as [? _]. Qed.

Lemma word_not_space c : is_word c = true → is_space c = false.
Proof.
  intros H. destruct (is_space c) eqn:Hs; [|done]. exfalso. revert H Hs.
  destruct c as [[] [] [] [] [] [] [] []]; by vm_compute.
Qed.

Lemma space_not_word c : is_space c = true → is_word c = false.
Proof.
  intros H. destruct (is_word c) eqn:Hw; [|done].
  apply word_not_space in Hw. congruence.
Qed.

Lemma run_Alt r1 r2 pos s caps k :
  run (Alt r1 r2) pos s caps k =
  match run r1 pos s caps k with
  | Some m => Some m
  | None => run r2 pos s caps k
  end.
Proof. done. Qed.

Lemma run_Char_cons c c' s pos caps k :
  run (Char c) pos (c' :: s) caps k =
  if bool_decide (c' = c) then k (S pos) s caps else None.
Proof. done. Qed.

(** A quoted text, matched with either quote. *)
Lemma run_quoted q body s pos caps k m :
  body ≠ [] → q ∉ body →
  k (pos + length (q :: body ++ [q]))%nat s caps = Some m →
  run (Cat (Char q) (Cat (Plus (NotChar q)) (Char q))) pos
    ((q :: body ++ [q]) ++ s) caps k = Some m.
Proof.
  intros Hne Hq Hk.
  rewrite run_Cat, <- app_comm_cons, run_Char_cons, bool_decide_true by done.
  rewrite run_Cat, <- app_assoc. unfold NotChar.
  apply run_plus_class; [done| | |].
  - apply Forall_forall. intros c Hc. apply bool_decide_true. by intros ->.
  - simpl. apply bool_decide_false. by intros H.
  - simpl. rewrite bool_decide_true by done. rewrite <- Hk. f_equal.
    simpl. rewrite length_app. simpl. lia.
Qed.

Lemma run_quotedRE lit s pos caps k m :
  isQuoted lit →
  k (pos + length lit)%nat s caps = Some m →
  run quotedRE pos (lit ++ s) caps k = Some m.
Proof.
  intros (q & body & Hq & -> & Hne & Hnotin) Hk. unfold quotedRE.
  rewrite run_Alt. destruct Hq as [-> | ->].
  - by rewrite (run_quoted _ _ _ _ _ _ m Hne Hnotin Hk).
  - rewrite (run_Cat (Char dquote)). rewrite <- app_comm_cons at 1.
    rewrite run_Char_cons. rewrite bool_decide_false by done.
    by apply run_quoted.
Qed.

Lemma run_importRE imp s pos caps k m :
  isImport imp → stops is_space s →
  k (pos + length imp)%nat s caps = Some m →
  run importRE pos (imp ++ s) caps k = Some m.
Proof.
  intros (ws1 & ws2 & lit & ws3 & -> & H1 & Hne2 & H2 & Hlit & H3) Hs Hk.
  unfold importRE, spaces, spaces1, Lit.
  rewrite run_Cat, <- !app_assoc.
  apply run_star_class; [done|by vm_compute|].
  rewrite run_Cat, run_Literal, run_Cat.
  assert (∃ q rest, lit = q :: rest ∧ is_space q = false) as (q & rest & Hl & Hqs).
  { destruct Hlit as (q & body & Hq & -> & _). exists q, (body ++ [q]).
    split; [done|]. by destruct Hq as [-> | ->]. }
  apply run_plus_class; [done..| |].
  { rewrite Hl. by simpl. }
  rewrite run_Cat. apply run_quotedRE; [done|].
  apply run_star_class; [done..|].
  rewrite <- Hk. f_equal. rewrite !length_app. simpl. lia.
Qed.

Lemma run_packageRE decl s pos caps k m :
  isDeclaration decl → stops is_word s →
  k (pos + length decl)%nat s caps = Some m →
  run packageRE pos (decl ++ s) caps k = Some m.
Proof.
  intros (ws & ident & -> & Hne & Hws & Hni & Hid) Hs Hk.
  unfold packageRE, spaces1, Lit.
  rewrite run_Cat, <- !app_assoc, run_Literal, run_Cat.
  apply run_plus_class; [done..| |].
  { apply stops_app; [done|]. eapply Forall_impl; [exact Hid|].
    intros c. apply word_not_space. }
  apply run_plus_class; [done..|].
  rewrite <- Hk. f_equal. rewrite !length_app. simpl. lia.
Qed.

Lemma search_unfold r n pos s :
  search r n pos s =
  match run (Capture 0 r) pos s (replicate (S n) None) (λ _ _ caps, Some caps) with
  | Some m => Some m
  | None => match s with
            | _ :: s' => search r n (S pos) s'
            | [] => None
            end
  end.
Proof. by destruct s. Qed.

Lemma run_Capture i r pos s caps k :
  run (Capture i r) pos s caps k =
  run r pos s caps
    (λ pos' s' caps', k pos' s' (<[i := Some (take (pos' - pos) s)]> caps')).
Proof. done. Qed.

Lemma run_BeginText_0 s caps k : run BeginText 0 s caps k = k O s caps.
Proof. done. Qed.

Lemma upto_newline_split s :
  ∃ s', s = upto_newline s ++ s' ∧ all_of is_dot (upto_newline s) ∧ stops is_dot s'.
Proof.
  induction s as [|c s (s' & Hs & Hall & Hstop)]; simpl.
  { exists []. split_and!; [done|constructor|done]. }
  destruct (is_dot c) eqn:Hc.
  - exists s'. split_and!; [by rewrite <- app_comm_cons, <- Hs|by constructor|done].
  - exists (c :: s). split_and!; [done|constructor|done].
Qed.

(** The line-comment form: the declaration is all that is kept. *)
Lemma removeImportComment_line_form line decl :
  lineCommentForm line decl → removeImportComment line = Some decl.
Proof.
  intros (ws & imp & Hdecl & Hne & Hws & Himp & ->).
  unfold removeImportComment, FindSubmatch. rewrite search_unfold.
  rewrite <- (app_nil_r imp).
  set (line := decl ++ ws ++ to_bytes "//" ++ imp ++ []).
  assert (Hrun : run (Capture 0 (expr importCommentRE)) 0 line (replicate 3 None)
                   (λ _ _ caps, Some caps)
                 = Some [Some (take (length line) line); Some decl; Some []]).
  { unfold importCommentRE, expr.
    rewrite run_Capture, run_Cat, run_BeginText_0, run_Cat, run_Capture.
    unfold line at 1.
    apply run_packageRE; [done| |].
    { apply stops_app; [done|]. eapply Forall_impl; [exact Hws|].
      intros c. apply space_not_word. }
    cbn beta. rewrite run_Cat. unfold spaces1.
    apply run_plus_class; [done|done|by vm_compute|].
    cbn beta. rewrite run_Cat. unfold commentRE. rewrite run_Alt.
    rewrite (run_Cat (Lit "//")). unfold Lit at 1. rewrite run_Literal, run_Cat.
    erewrite run_importRE; [reflexivity|done|done|].
    cbn beta. simpl run. simpl insert.
    rewrite !Nat.sub_0_r, Nat.sub_diag. f_equal. f_equal; [|f_equal].
    + do 2 f_equal. unfold line. rewrite !length_app. simpl. lia.
    + unfold line. by rewrite take_app_length. }
  simpl numSubexp. rewrite Hrun. simpl. by rewrite app_nil_r.
Qed.

(** The block-comment form: the declaration and what follows the comment
    on the line are kept. *)
Lemma removeImportComment_block decl ws imp r1 s' :
  isDeclaration decl → ws ≠ [] → all_of is_space ws → isImport imp →
  all_of is_dot r1 → stops is_dot s' →
  removeImportComment
    (decl ++ ws ++ to_bytes "/*" ++ imp ++ to_bytes "*/" ++ r1 ++ s')
  = Some (decl ++ r1).
Proof.
  intros Hdecl Hne Hws Himp Hr1 Hs'.
  unfold removeImportComment, FindSubmatch. rewrite search_unfold.
  set (line := decl ++ ws ++ to_bytes "/*" ++ imp ++ to_bytes "*/" ++ r1 ++ s').
  assert (∃ whole,
            run (Capture 0 (expr importCommentRE)) 0 line (replicate 3 None)
              (λ _ _ caps, Some caps)
            = Some [Some whole; Some decl; Some r1]) as [whole Hrun].
  { eexists. unfold importCommentRE, expr.
    rewrite run_Capture, run_Cat, run_BeginText_0, run_Cat, run_Capture.
    unfold line at 1.
    apply run_packageRE; [done| |].
    { apply stops_app; [done|]. eapply Forall_impl; [exact Hws|].
      intros c. apply space_not_word. }
    cbn beta. rewrite run_Cat. unfold spaces1.
    apply run_plus_class; [done|done|by vm_compute|].
    cbn beta. rewrite run_Cat. unfold commentRE. rewrite run_Alt.
    assert (Hfirst : ∀ r pos s caps k,
              run (Cat (Lit "//") r) pos (to_bytes "/*" ++ s) caps k = None) by done.
    rewrite Hfirst. rewrite (run_Cat (Lit "/*")). unfold Lit at 1.
    rewrite run_Literal, run_Cat.
    apply run_importRE; [done|by vm_compute|].
    cbn beta. unfold Lit. rewrite run_Literal, run_Capture.
    apply run_star_class; [done..|].
    cbn beta. simpl insert.
    replace (length decl + length ws + 2 + length imp + 2 + length r1 -
             (length decl + length ws + 2 + length imp + 2))%nat
      with (length r1) by lia.
    rewrite !Nat.sub_0_r, take_app_length. unfold line at 2.
    by rewrite take_app_length. }
  simpl numSubexp. by rewrite Hrun.
Qed.

Lemma removeImportComment_block_form line decl rest :
  blockCommentForm line decl rest →
  removeImportComment line = Some (decl ++ upto_newline rest).
Proof.
  intros (ws & imp & Hdecl & Hne & Hws & Himp & ->).
  destruct (upto_newline_split rest) as (s' & Hrest & Hall & Hstop).
  rewrite Hrest at 1. by apply removeImportComment_block.
Qed.

(** What a match of each piece of [importCommentRE] has consumed. *)
Ltac invert H := inversion H; subst; clear H.

Lemma denote_star_class p pos s caps pos' s' caps' :
  denote (Star (Class p)) pos s caps pos' s' caps' →
  ∃ w, s = w ++ s' ∧ all_of p w.
Proof.
  intros H. remember (Star (Class p)) as R eqn:HR.
  induction H as [| | | | |r pos s caps
                  |r pos s caps pos1 s1 caps1 pos2 s2 caps2 H1 _ Hlt H2 IH| | |];
    try discriminate; injection HR as ->.
  - exists []. split; [done|constructor].
  - destruct (IH eq_refl) as (w & -> & Hw). invert H1.
    exists (c :: w). split; [done|by constructor].
Qed.

Lemma denote_plus_class p pos s caps pos' s' caps' :
  denote (Plus (Class p)) pos s caps pos' s' caps' →
  ∃ w, s = w ++ s' ∧ w ≠ [] ∧ all_of p w.
Proof.
  unfold Plus. intros H. invert H.
  match goal with H : denote (Class _) _ _ _ _ _ _ |- _ => invert H end.
  match goal with H : denote (Star _) _ _ _ _ _ _ |- _ =>
    apply denote_star_class in H as (w & -> & Hw) end.
  exists (c :: w). split_and!; [done|done|by constructor].
Qed.

Lemma denote_Literal lit pos s caps pos' s' caps' :
  denote (Literal lit) pos s caps pos' s' caps' → s = lit ++ s'.
Proof.
  revert pos s caps. induction lit as [|c lit IH]; intros pos s caps H; simpl in H.
  - by invert H.
  - invert H.
    match goal with H : denote (Char _) _ _ _ _ _ _ |- _ => invert H end.
    match goal with H : bool_decide _ = true |- _ =>
      apply bool_decide_eq_true in H as -> end.
    simpl. f_equal. by eapply IH.
Qed.

Lemma denote_quoted q pos s caps pos' s' caps' :
  denote (Cat (Char q) (Cat (Plus (NotChar q)) (Char q))) pos s caps pos' s' caps' →
  ∃ body, s = (q :: body ++ [q]) ++ s' ∧ body ≠ [] ∧ q ∉ body.
Proof.
  intros H. invert H.
  match goal with H : denote (Char _) _ _ _ _ _ _ |- _ => invert H end.
  match goal with H : bool_decide _ = true |- _ =>
    apply bool_decide_eq_true in H as -> end.
  match goal with H : denote (Cat _ _) _ _ _ _ _ _ |- _ => invert H end.
  match goal with H : denote (Plus _) _ _ _ _ _ _ |- _ =>
    apply denote_plus_class in H as (body & -> & Hne & Hbody) end.
  match goal with H : denote (Char _) _ _ _ _ _ _ |- _ => invert H end.
  match goal with H : bool_decide _ = true |- _ =>
    apply bool_decide_eq_true in H as -> end.
  exists body. split_and!; [simpl; f_equal; by rewrite <- app_assoc|done|].
  intros Hin. unfold all_of in Hbody. rewrite Forall_forall in Hbody.
  apply Hbody in Hin. by apply bool_decide_eq_true in Hin.
Qed.

Lemma denote_quotedRE pos s caps pos' s' caps' :
  denote quotedRE pos s caps pos' s' caps' →
  ∃ lit, s = lit ++ s' ∧ isQuoted lit.
Proof.
  unfold quotedRE. intros H. invert H;
    match goal with H : denote (Cat _ _) _ _ _ _ _ _ |- _ =>
      apply denote_quoted in H as (body & -> & Hne & Hnotin) end;
    eexists; (split; [done|]); eexists _, body;
    (split_and!; [|done..]); [by left|by right].
Qed.

Lemma denote_importRE pos s caps pos' s' caps' :
  denote importRE pos s caps pos' s' caps' →
  ∃ imp, s = imp ++ s' ∧ isImport imp.
Proof.
  unfold importRE, spaces, spaces1, Lit. intros H. invert H.
  match goal with H : denote (Star _) _ _ _ _ _ _ |- _ =>
    apply denote_star_class in H as (ws1 & -> & H1) end.
  match goal with H : denote (Cat _ _) _ _ _ _ _ _ |- _ => invert H end.
  match goal with H : denote (Cat (Char _) _) _ _ _ _ _ _ |- _ =>
    apply (denote_Literal (to_bytes "import")) in H as -> end.
  match goal with H : denote (Cat _ _) _ _ _ _ _ _ |- _ => invert H end.
  match goal with H : denote (Plus _) _ _ _ _ _ _ |- _ =>
    apply denote_plus_class in H as (ws2 & -> & Hne & H2) end.
  match goal with H : denote (Cat _ _) _ _ _ _ _ _ |- _ => invert H end.
  match goal with H : denote quotedRE _ _ _ _ _ _ |- _ =>
    apply denote_quotedRE in H as (lit & -> & Hlit) end.
  match goal with H : denote (Star _) _ _ _ _ _ _ |- _ =>
    apply denote_star_class in H as (ws3 & -> & H3) end.
  exists (ws1 ++ to_bytes "import" ++ ws2 ++ lit ++ ws3). split.
  - by rewrite <- !app_assoc.
  - by exists ws1, ws2, lit, ws3.
Qed.

Lemma denote_packageRE pos s caps pos' s' caps' :
  denote packageRE pos s caps pos' s' caps' →
  ∃ decl, s = decl ++ s' ∧ isDeclaration decl.
Proof.
  unfold packageRE, spaces1, Lit. intros H. invert H.
  match goal with H : denote (Cat (Char _) _) _ _ _ _ _ _ |- _ =>
    apply (denote_Literal (to_bytes "package")) in H as -> end.
  match goal with H : denote (Cat _ _) _ _ _ _ _ _ |- _ => invert H end.
  match goal with H : denote (Plus (Class is_space)) _ _ _ _ _ _ |- _ =>
    apply denote_plus_class in H as (ws & -> & Hne & Hws) end.
  match goal with H : denote (Plus _) _ _ _ _ _ _ |- _ =>
    apply denote_plus_class in H as (ident & -> & Hni & Hid) end.
  exists (to_bytes "package" ++ ws ++ ident). split.
  - by rewrite <- !app_assoc.
  - by exists ws, ident.
Qed.

Lemma search_BeginText r n pos s : search (Cat BeginText r) n (S pos) s = None.
Proof.
  revert pos. induction s as [|c s IH]; intros pos; rewrite search_unfold;
    rewrite run_Capture, run_Cat; simpl; [done|apply IH].
Qed.

(** A line [removeImportComment] rewrites has one of the two forms. *)
Lemma removeImportComment_forms line out :
  removeImportComment line = Some out →
  (∃ decl, lineCommentForm line decl) ∨
  (∃ decl rest, blockCommentForm line decl rest).
Proof.
  unfold removeImportComment. destruct (FindSubmatch _ _) as [m|] eqn:Hf; [|done].
  intros _. unfold FindSubmatch in Hf. rewrite search_unfold in Hf.
  destruct (run _ _ _ _ _) as [m'|] eqn:Hrun.
  2:{ destruct line; [done|]. unfold importCommentRE, expr in Hf.
      by rewrite search_BeginText in Hf. }
  clear Hf. apply run_denote in Hrun as (pos' & s' & caps' & Hd & _).
  unfold importCommentRE, expr in Hd. invert Hd.
  match goal with H : denote (Cat BeginText _) _ _ _ _ _ _ |- _ => invert H end.
  match goal with H : denote BeginText _ _ _ _ _ _ |- _ => invert H end.
  match goal with H : denote (Cat (Capture 1 _) _) _ _ _ _ _ _ |- _ => invert H end.
  match goal with H : denote (Capture 1 _) _ _ _ _ _ _ |- _ => invert H end.
  match goal with H : denote packageRE _ _ _ _ _ _ |- _ =>
    apply denote_packageRE in H as (decl & -> & Hdecl) end.
  match goal with H : denote (Cat spaces1 _) _ _ _ _ _ _ |- _ => invert H end.
  match goal with H : denote spaces1 _ _ _ _ _ _ |- _ =>
    apply denote_plus_class in H as (ws & -> & Hne & Hws) end.
  match goal with H : denote (Cat commentRE _) _ _ _ _ _ _ |- _ => invert H end.
  match goal with H : denote commentRE _ _ _ _ _ _ |- _ =>
    unfold commentRE in H; invert H end.
  - left. exists decl, ws.
    match goal with H : denote (Cat _ (Cat importRE EndText)) _ _ _ _ _ _ |- _ =>
      invert H end.
    match goal with H : denote (Cat importRE EndText) _ _ _ _ _ _ |- _ => invert H end.
    match goal with H : denote importRE _ _ _ _ _ _ |- _ =>
      apply denote_importRE in H as (imp & -> & Himp) end.
    match goal with H : denote EndText _ _ _ _ _ _ |- _ => invert H end.
    match goal with H : denote (Lit "//") _ _ _ _ _ _ |- _ =>
      apply (denote_Literal (to_bytes "//")) in H as -> end.
    exists imp. rewrite app_nil_r. by split_and!.
  - right.
    match goal with H : denote (Cat _ (Cat importRE _)) _ _ _ _ _ _ |- _ =>
      invert H end.
    match goal with H : denote (Cat importRE _) _ _ _ _ _ _ |- _ => invert H end.
    match goal with H : denote importRE _ _ _ _ _ _ |- _ =>
      apply denote_importRE in H as (imp & -> & Himp) end.
    match goal with H : denote (Lit "*/") _ _ _ _ ?rest _ |- _ =>
      apply (denote_Literal (to_bytes "*/")) in H as ->; rename rest into tail end.
    match goal with H : denote (Lit "/*") _ _ _ _ _ _ |- _ =>
      apply (denote_Literal (to_bytes "/*")) in H as -> end.
    exists decl, tail, ws, imp. by split_and!.
Qed.

(** ** [StripImportComment] *)

Lemma cut_after_line l rest :
  newline ∉ l → cut_after newline (l ++ newline :: rest) = Some (l ++ [newline], rest).
Proof.
  induction l as [|c l IH]; intros Hl; [done|].
  apply not_elem_of_cons in Hl as [Hc Hl]. rewrite <- app_comm_cons.
  cbn [cut_after]. rewrite bool_decide_false by done. by rewrite IH.
Qed.

Lemma cut_after_none l : newline ∉ l → cut_after newline l = None.
Proof.
  induction l as [|c l IH]; intros Hl; [done|].
  apply not_elem_of_cons in Hl as [Hc Hl].
  cbn [cut_after]. rewrite bool_decide_false by done. by rewrite IH.
Qed.

Lemma cut_after_Some s line rest :
  cut_after newline s = Some (line, rest) →
  (length rest < length s)%nat ∧ ends_with_newline line.
Proof.
  revert line rest. induction s as [|c s IH]; intros line rest; [done|].
  cbn [cut_after]. case_bool_decide as Hc.
  - intros [= <- <-]. split; [simpl; lia|]. exists []. by rewrite Hc.
  - destruct (cut_after newline s) as [[l r]|]; [|done]. intros [= <- <-].
    destruct (IH l r eq_refl) as [Hlt [l' ->]].
    split; [simpl; lia|]. by exists (c :: l').
Qed.

Lemma TrimRight_clean l : newline ∉ l → TrimRight l [newline] = l.
Proof.
  induction l as [|c l IH]; intros Hl; [done|].
  apply not_elem_of_cons in Hl as [Hc Hl]. cbn [TrimRight]. rewrite IH by done.
  destruct l; [|done]. rewrite bool_decide_false; [done|].
  by intros ->%list_elem_of_singleton.
Qed.

Lemma TrimRight_line l : newline ∉ l → TrimRight (l ++ [newline]) [newline] = l.
Proof.
  induction l as [|c l IH]; intros Hl.
  { cbn [app TrimRight]. rewrite bool_decide_true; [done|].
    by apply list_elem_of_singleton. }
  apply not_elem_of_cons in Hl as [Hc Hl]. rewrite <- app_comm_cons.
  cbn [TrimRight]. rewrite IH by done.
  destruct l; [|done]. rewrite bool_decide_false; [done|].
  by intros ->%list_elem_of_singleton.
Qed.

Lemma stripLoop_S fuel b w changed :
  stripLoop (S fuel) b w changed =
  let '(line, err, b') := ReadBytes b newline in
  let after (eof : bool) :=
    let '(w', changed', werr) := stripLine w changed line in
    match werr with
    | Some e => Some (w', (false, Some (errors_Wrap e "StripImportComment")))
    | None =>
        if eof then Some (w', (changed', None))
        else stripLoop fuel b' w' changed'
    end in
  match err with
  | Some e =>
      if bool_decide (e = io_EOF) then after true
      else Some (w, (false, Some (errors_Wrap e "StripImportComment")))
  | None => after false
  end.
Proof. done. Qed.

(** Whatever one round writes ends in a newline. *)
Lemma stripLine_chunks w changed line w' changed' err :
  stripLine w changed line = (w', changed', err) →
  ∃ new, chunks w' = chunks w ++ new ∧ Forall ends_with_newline new.
Proof.
  unfold stripLine. case_bool_decide.
  2:{ intros [= <- _ _]. exists []. by rewrite app_nil_r. }
  destruct (removeImportComment _) as [repl|]; unfold Write;
    destruct (refuses w _ _); intros [= <- _ _]; simpl;
    try (exists []; by rewrite app_nil_r);
    (eexists [_]; split; [done|]; constructor; [by eexists|constructor]).
Qed.

Lemma stripLoop_chunks fuel b w changed w' r :
  stripLoop fuel b w changed = Some (w', r) →
  ∃ new, chunks w' = chunks w ++ new ∧ Forall ends_with_newline new.
Proof.
  revert b w changed. induction fuel as [|fuel IH]; intros b w changed; [done|].
  rewrite stripLoop_S. destruct (ReadBytes b newline) as [[line err] b'].
  destruct (stripLine w changed line) as [[w1 c1] werr] eqn:Hline.
  apply stripLine_chunks in Hline as (new1 & Hw1 & Hnew1).
  assert (Hstop : ∀ x, Some (w1, x) = Some (w', r) →
            ∃ new, chunks w' = chunks w ++ new ∧ Forall ends_with_newline new).
  { intros x [= <- _]. eauto. }
  assert (Hsame : ∀ x, Some (w, x) = Some (w', r) →
            ∃ new, chunks w' = chunks w ++ new ∧ Forall ends_with_newline new).
  { intros x [= <- _]. exists []. by rewrite app_nil_r. }
  assert (Hgo : stripLoop fuel b' w1 c1 = Some (w', r) →
            ∃ new, chunks w' = chunks w ++ new ∧ Forall ends_with_newline new).
  { intros (new2 & Hw2 & Hnew2)%IH. exists (new1 ++ new2).
    split; [by rewrite Hw2, Hw1, app_assoc|by apply Forall_app]. }
  destruct err as [e|]; [case_bool_decide|]; destruct werr; intros Heq;
    cbv beta zeta iota in Heq;
    first [by eapply Hstop | by eapply Hsame | by eapply Hgo].
Qed.

(** The loop comes to an end. *)
Lemma stripLoop_total fuel b w changed :
  (length (pending b) < fuel)%nat → is_Some (stripLoop fuel b w changed).
Proof.
  revert b w changed. induction fuel as [|fuel IH]; intros b w changed Hf; [lia|].
  rewrite stripLoop_S. unfold ReadBytes.
  destruct (cut_after newline (pending b)) as [[line rest]|] eqn:Hcut.
  - apply cut_after_Some in Hcut as [Hlt _].
    destruct (stripLine w changed line) as [[w1 c1] werr]. destruct werr; [done|].
    apply IH. simpl. lia.
  - destruct (stripLine w changed (pending b)) as [[w1 c1] werr].
    case_bool_decide; [|done]. by destruct werr.
Qed.

Lemma stripLine_line w changed l :
  accepting w → newline ∉ l →
  stripLine w changed (l ++ [newline]) =
    ({| chunks := chunks w ++ [emitted l]; refuses := refuses w |},
     changed || annotated l, None).
Proof.
  intros Hw Hl. unfold stripLine, emitted, annotated.
  rewrite bool_decide_true by (rewrite length_app; simpl; lia).
  rewrite TrimRight_line by done.
  rewrite bool_decide_false by (rewrite length_app; simpl; lia).
  destruct (removeImportComment l) as [repl|]; unfold Write; rewrite Hw; simpl;
    by rewrite ?orb_true_r, ?orb_false_r.
Qed.

Lemma stripLine_last w changed l :
  accepting w → newline ∉ l → l ≠ [] →
  stripLine w changed l =
    ({| chunks := chunks w ++ [emitted l]; refuses := refuses w |}, true, None).
Proof.
  intros Hw Hl Hne. unfold stripLine, emitted.
  rewrite bool_decide_true by (destruct l; [done|simpl; lia]).
  rewrite TrimRight_clean by done. rewrite bool_decide_true by done.
  destruct (removeImportComment l) as [repl|]; unfold Write; by rewrite Hw.
Qed.

Lemma stripLine_empty w changed : stripLine w changed [] = (w, changed, None).
Proof. done. Qed.

(** The loop on a file that reads without error, with a writer that takes
    everything: one chunk per line, and [changed] as the lines make it. *)
Lemma stripLoop_file ls last w changed fuel :
  accepting w → Forall (λ l, newline ∉ l) ls → newline ∉ last →
  (length (file_of ls last) < fuel)%nat →
  stripLoop fuel {| pending := file_of ls last; failure := None |} w changed =
    Some ({| chunks := chunks w ++ (emitted <$> ls)
                         ++ (if bool_decide (last = []) then [] else [emitted last]);
             refuses := refuses w |},
          (changed || existsb annotated ls || negb (bool_decide (last = [])), None)).
Proof.
  intros Hw Hls Hlast. revert w changed fuel Hw.
  induction Hls as [|l ls Hl Hls IH]; intros w changed fuel Hw Hf.
  - destruct fuel as [|fuel]; [lia|]. rewrite stripLoop_S. unfold ReadBytes, file_of.
    simpl. rewrite cut_after_none by done. simpl.
    destruct (decide (last = [])) as [->|Hne].
    + simpl. destruct w. by rewrite app_nil_r, !orb_false_r.
    + rewrite stripLine_last by done. rewrite !bool_decide_false by done.
      simpl. by rewrite orb_true_r.
  - destruct fuel as [|fuel]; [lia|]. rewrite stripLoop_S. unfold ReadBytes.
    assert (Hfile : file_of (l :: ls) last = l ++ newline :: file_of ls last).
    { unfold file_of. simpl. by rewrite <- !app_assoc. }
    rewrite Hfile in Hf |- *. simpl pending. rewrite cut_after_line by done.
    rewrite stripLine_line by done.
    rewrite IH; [|done|].
    + simpl. rewrite <- !app_assoc. simpl. do 3 f_equal.
      by rewrite !orb_assoc.
    + rewrite length_app in Hf. simpl in Hf. lia.
Qed.

Lemma existsb_none {A} (f : A → bool) l :
  Forall (λ x, f x = false) l → existsb f l = false.
Proof. induction 1 as [|x l Hx _ IH]; simpl; [done|]. by rewrite Hx, IH. Qed.

Lemma existsb_some {A} (f : A → bool) l x :
  x ∈ l → f x = true → existsb f l = true.
Proof.
  intros Hin Hx. induction Hin as [x l|x y l Hin IH]; simpl.
  - by rewrite Hx.
  - by rewrite IH, orb_true_r.
Qed.

Section StripImportComment_properties.

Variable filepath_Join : string → string → string.
Variable os_Open : string → Reader + error.
Variables (wt : anyWorkingTree) (path : string).

(** The call on a [.go] file that opens and reads without error, with a
    writer that takes everything. *)
Lemma StripImportComment_file ls last w :
  HasSuffix path ".go" = true →
  os_Open (filepath_Join (Dir wt) path)
    = inl {| pending := file_of ls last; failure := None |} →
  accepting w → Forall (λ l, newline ∉ l) ls → newline ∉ last →
  StripImportComment filepath_Join os_Open wt path w =
    Some ({| chunks := chunks w ++ (emitted <$> ls)
                         ++ (if bool_decide (last = []) then [] else [emitted last]);
             refuses := refuses w |},
          (existsb annotated ls || negb (bool_decide (last = [])), None)).
Proof.
  intros Hgo Hopen Hw Hls Hlast. unfold StripImportComment.
  rewrite Hgo, Hopen. simpl negb. cbv iota. simpl pending.
  by rewrite stripLoop_file by (done || lia).
Qed.

Lemma StripImportComment_total w :
  is_Some (StripImportComment filepath_Join os_Open wt path w).
Proof.
  unfold StripImportComment. destruct (negb _); [done|].
  destruct (os_Open _) as [r|e]; [|done]. apply stripLoop_total. lia.
Qed.

Lemma StripImportComment_chunks w w' r :
  StripImportComment filepath_Join os_Open wt path w = Some (w', r) →
  ∃ new, chunks w' = chunks w ++ new ∧ Forall ends_with_newline new.
Proof.
  unfold StripImportComment. destruct (negb _).
  { intros [= <- _]. exists []. by rewrite app_nil_r. }
  destruct (os_Open _) as [b|e].
  - apply stripLoop_chunks.
  - intros [= <- _]. exists []. by rewrite app_nil_r.
Qed.

End StripImportComment_properties.

Lemma upto_newline_clean s : newline ∉ s → upto_newline s = s.
Proof.
  induction s as [|c s IH]; intros Hs; [done|].
  apply not_elem_of_cons in Hs as [Hc Hs]. cbn [upto_newline]. unfold is_dot.
  rewrite bool_decide_true by (by intros ->). by rewrite IH.
Qed.

Lemma removeImportComment_nil : removeImportComment [] = None.
Proof. done. Qed.

(** C6: a line made of a package declaration, white space and a line
    comment or a block comment that holds only [import] and a quoted path
    is rewritten to the declaration followed by what stands after the block
    comment on the line, and the file is then reported as changed; a line of
    neither form is written as it is. [package foo // import "example.com/foo"]
    becomes [package foo], and
    [package foo /* import "example.com/foo" */ // trailing] becomes
    [package foo // trailing]. *)
Theorem StripImportComment_annotation :
  (∀ line decl,
     lineCommentForm line decl → removeImportComment line = Some decl)
  ∧ (∀ line decl rest,
       blockCommentForm line decl rest →
       removeImportComment line = Some (decl ++ upto_newline rest) ∧
       (newline ∉ rest → removeImportComment line = Some (decl ++ rest)))
  ∧ (∀ line,
       (∀ decl, ¬ lineCommentForm line decl) →
       (∀ decl rest, ¬ blockCommentForm line decl rest) →
       removeImportComment line = None)
  ∧ removeImportComment line_comment_example = Some (to_bytes "package foo")
  ∧ removeImportComment block_comment_example = Some (to_bytes "package foo // trailing")
  ∧ (∀ filepath_Join os_Open wt path ls last w,
       HasSuffix path ".go" = true →
       os_Open (filepath_Join (Dir wt) path)
         = inl {| pending := file_of ls last; failure := None |} →
       accepting w → Forall (λ l, newline ∉ l) ls → newline ∉ last →
       StripImportComment filepath_Join os_Open wt path w =
         Some ({| chunks := chunks w ++ (emitted <$> ls)
                              ++ (if bool_decide (last = []) then [] else [emitted last]);
                  refuses := refuses w |},
               (existsb annotated ls || negb (bool_decide (last = [])), None))
       ∧ (∀ l out, l ∈ ls ∨ l = last → removeImportComment l = Some out →
            emitted l = out ++ [newline] ∧
            existsb annotated ls || negb (bool_decide (last = [])) = true)
       ∧ (∀ l, removeImportComment l = None → emitted l = l ++ [newline])).
Proof.
  split_and!.
  - apply removeImportComment_line_form.
  - intros line decl rest Hform.
    pose proof (removeImportComment_block_form line decl rest Hform) as Hrun.
    split; [done|]. intros Hrest. by rewrite upto_newline_clean in Hrun.
  - intros line Hline Hblock.
    destruct (removeImportComment line) as [out|] eqn:Hout; [|done].
    apply removeImportComment_forms in Hout as [[decl H]|(decl & rest & H)].
    + by destruct (Hline decl).
    + by destruct (Hblock decl rest).
  - by vm_compute.
  - by vm_compute.
  - intros filepath_Join os_Open wt path ls last w Hgo Hopen Hw Hls Hlast.
    split_and!.
    + by apply StripImportComment_file.
    + intros l out Hl Hout. unfold emitted. rewrite Hout. split; [done|].
      destruct Hl as [Hl| ->].
      * rewrite (existsb_some annotated ls l); [done..|].
        unfold annotated. by rewrite Hout.
      * rewrite bool_decide_false; [by rewrite orb_true_r|].
        intros ->. by rewrite removeImportComment_nil in Hout.
    + intros l Hnone. unfold emitted. by rewrite Hnone.
Qed.

Lemma StripImportComment_annotation_witness :
  StripImportComment joinPath
    (oneFile (file_of [line_comment_example; to_bytes "func main() {}"] []))
    srcTree "foo.go" buffer
  = Some ({| chunks := [to_bytes "package foo" ++ [newline];
                        to_bytes "func main() {}" ++ [newline]];
             refuses := refuses buffer |}, (true, None)).
Proof.
  assert (Hls : Forall (λ l : bytes, newline ∉ l)
                  [line_comment_example; to_bytes "func main() {}"]).
  { repeat constructor; apply (bool_decide_unpack _); by vm_compute. }
  assert (Hlast : newline ∉ ([] : bytes)) by apply not_elem_of_nil.
  assert (Hw : accepting buffer) by done.
  destruct (proj2 (proj2 (proj2 (proj2 (proj2 StripImportComment_annotation))))
              joinPath
              (oneFile (file_of [line_comment_example; to_bytes "func main() {}"] []))
              srcTree "foo.go" [line_comment_example; to_bytes "func main() {}"] []
              buffer eq_refl eq_refl Hw Hls Hlast) as [Hrun _].
  rewrite Hrun. by vm_compute.
Defined.

(** What is written for a line ends in a newline. *)
Lemma emitted_newline l : ends_with_newline (emitted l).
Proof. unfold emitted. by eexists. Qed.

Lemma emitted_plain ls :
  Forall (λ l, removeImportComment l = None) ls →
  emitted <$> ls = (λ l, l ++ [newline]) <$> ls.
Proof.
  intros Hnone. apply Forall_fmap_ext. eapply Forall_impl; [exact Hnone|].
  intros l Hl. unfold emitted. by rewrite Hl.
Qed.

(** C7: every chunk [StripImportComment] writes ends in a newline, and the
    call always returns; on a file that reads without error, with a writer
    that takes everything, one chunk is written for each line, the last
    line included when it has bytes but no newline, and each chunk is the
    line (rewritten if it carries an import comment) and a newline; a last
    line without its newline makes the result [changed] whatever the lines
    are, and a file in which no line is rewritten and every line has its
    newline is reported unchanged; when no line is rewritten, what has
    been written is the file, and a newline more when the last line had
    none. *)
Theorem StripImportComment_newlines :
  (∀ filepath_Join os_Open wt path w,
     ∃ w' r, StripImportComment filepath_Join os_Open wt path w = Some (w', r) ∧
       ∃ new, chunks w' = chunks w ++ new ∧ Forall ends_with_newline new)
  ∧ (∀ filepath_Join os_Open wt path ls last w,
       HasSuffix path ".go" = true →
       os_Open (filepath_Join (Dir wt) path)
         = inl {| pending := file_of ls last; failure := None |} →
       accepting w → Forall (λ l, newline ∉ l) ls → newline ∉ last →
       ∃ w' changed,
         StripImportComment filepath_Join os_Open wt path w = Some (w', (changed, None)) ∧
         w' = {| chunks := chunks w ++ (emitted <$> ls)
                             ++ (if bool_decide (last = []) then [] else [emitted last]);
                 refuses := refuses w |} ∧
         (∀ l, ends_with_newline (emitted l) ∧
               (removeImportComment l = None → emitted l = l ++ [newline])) ∧
         (last ≠ [] → changed = true) ∧
         (last = [] → Forall (λ l, removeImportComment l = None) ls → changed = false) ∧
         (Forall (λ l, removeImportComment l = None) ls →
          removeImportComment last = None →
          contents w' = contents w ++ file_of ls last
                          ++ (if bool_decide (last = []) then [] else [newline]))).
Proof.
  split.
  - intros filepath_Join os_Open wt path w.
    destruct (StripImportComment_total filepath_Join os_Open wt path w) as [[w' r] Hrun].
    exists w', r. split; [done|]. by eapply StripImportComment_chunks.
  - intros filepath_Join os_Open wt path ls last w Hgo Hopen Hw Hls Hlast.
    eexists _, _. split; [by apply StripImportComment_file|].
    split; [done|]. split_and!.
    + intros l. split; [apply emitted_newline|].
      intros Hnone. unfold emitted. by rewrite Hnone.
    + intros Hne. rewrite bool_decide_false by done. by rewrite orb_true_r.
    + intros -> Hnone. rewrite bool_decide_true by done. rewrite orb_false_r.
      apply existsb_none. eapply Forall_impl; [exact Hnone|].
      intros l Hl. unfold annotated. by rewrite Hl.
    + intros Hnone Hnone'. unfold contents, file_of. cbn [chunks].
      rewrite !join_app, (emitted_plain ls Hnone), <- !app_assoc. do 2 f_equal.
      case_bool_decide as He; [by subst last|].
      unfold emitted. rewrite Hnone'. simpl. by rewrite app_nil_r.
Qed.

Lemma StripImportComment_newlines_witness :
  StripImportComment joinPath
    (oneFile (file_of [to_bytes "package foo"] (to_bytes "// no newline")))
    srcTree "foo.go" buffer
  = Some ({| chunks := [to_bytes "package foo" ++ [newline];
                        to_bytes "// no newline" ++ [newline]];
             refuses := refuses buffer |}, (true, None)).
Proof.
  assert (Hls : Forall (λ l : bytes, newline ∉ l) [to_bytes "package foo"]).
  { repeat constructor; apply (bool_decide_unpack _); by vm_compute. }
  assert (Hlast : newline ∉ to_bytes "// no newline").
  { apply (bool_decide_unpack _); by vm_compute. }
  assert (Hw : accepting buffer) by done.
  destruct (proj2 StripImportComment_newlines joinPath
              (oneFile (file_of [to_bytes "package foo"] (to_bytes "// no newline")))
              srcTree "foo.go" [to_bytes "package foo"] (to_bytes "// no newline")
              buffer eq_refl eq_refl Hw Hls Hlast)
    as (w' & changed & Hrun & Hw' & _ & Hch & _).
  rewrite Hrun, Hw', Hch; by vm_compute.
Defined.

(** ** [Diff] *)

(** The wait status of [exit(code)] reads back as exited with [code]. *)
Lemma exit_code_status code :
  0 ≤ code ≤ 255 →
  Exited (exit_code code) = true ∧ ExitStatus (exit_code code) = code.
Proof.
  intros Hc.
  assert (Hall : Forall (λ c, Exited (exit_code c) = true ∧ ExitStatus (exit_code c) = c)
                   (seqZ 0 256)).
  { apply (bool_decide_unpack _). by vm_compute. }
  rewrite Forall_forall in Hall. apply Hall, elem_of_seqZ. lia.
Qed.

Lemma mjoin_cons {A} (x : list A) (xs : list (list A)) :
  mjoin (x :: xs) = x ++ mjoin xs.
Proof. done. Qed.

(** The reads that bring bytes, put together, are the output. *)
Lemma mjoin_nonempty (reads : list bytes) :
  mjoin (filter (λ p, p ≠ []) reads) = mjoin reads.
Proof.
  induction reads as [|p reads IH]; [done|].
  rewrite filter_cons. destruct (decide (p ≠ [])) as [Hp|Hp].
  - by rewrite !mjoin_cons, IH.
  - apply dec_stable in Hp as ->. by rewrite mjoin_cons.
Qed.

(** The copy writes the reads that brought bytes, in their order and one
    [Write] each, up to the first that the writer refuses. *)
Lemma io_Copy_spec reads out out' copyError :
  io_Copy out reads = (out', copyError) →
  refuses out' = refuses out ∧
  ∃ written, chunks out' = chunks out ++ written ∧
    match copyError with
    | None => written = filter (λ p, p ≠ []) reads
    | Some e => ∃ p rest, filter (λ p, p ≠ []) reads = written ++ p :: rest ∧
                  refuses out (chunks out ++ written) p = Some e
    end.
Proof.
  revert out. induction reads as [|p reads IH]; intros out.
  { intros [= <- <-]. split; [done|]. exists []. by rewrite app_nil_r. }
  cbn [io_Copy]. rewrite filter_cons. case_bool_decide as Hp.
  { rewrite decide_False by (by intros ?). apply IH. }
  rewrite decide_True by done. unfold Write.
  destruct (refuses out (chunks out) p) as [e|] eqn:Href.
  - intros [= <- <-]. split; [done|]. exists []. rewrite !app_nil_r.
    split; [done|]. by exists p, (filter (λ p, p ≠ []) reads).
  - intros (Hr & written & Hch & Hrest)%IH. simpl in Hr, Hch. split; [done|].
    exists (p :: written). split; [by rewrite Hch, <- app_assoc|].
    destruct copyError as [e|].
    + destruct Hrest as (q & rest & Hfilter & Hq). exists q, rest.
      simpl in Hq. rewrite <- app_assoc in Hq. split; [|done].
      by rewrite Hfilter.
    + by rewrite Hrest.
Qed.

Lemma io_Copy_accepting reads out :
  accepting out →
  ∃ out', io_Copy out reads = (out', None) ∧
    chunks out' = chunks out ++ filter (λ p, p ≠ []) reads.
Proof.
  intros Hw. destruct (io_Copy out reads) as [out' copyError] eqn:Hcopy.
  destruct (io_Copy_spec reads out out' copyError Hcopy) as (_ & written & Hch & Hrest).
  destruct copyError as [e|].
  - destruct Hrest as (p & rest & _ & Href). by rewrite Hw in Href.
  - exists out'. by rewrite Hch, Hrest.
Qed.

Lemma Run_contents p out reads status :
  p = Waited reads status → accepting out →
  contents (Run p out).1 = contents out ++ mjoin reads.
Proof.
  intros -> Hw. unfold Run, contents.
  destruct (io_Copy_accepting reads out Hw) as (out' & -> & Hch).
  destruct (negb _); simpl; by rewrite Hch, join_app, mjoin_nonempty.
Qed.

Section Diff_properties.

Variable filepath_Join : string → string → string.
Variable execCommand : string → list string → ProcessResult.
Variables (wt : anyWorkingTree) (out : Writer) (path localFile : string).

Abbreviation ran :=
  (execCommand "diff" ["-u"; diffPath filepath_Join wt path; localFile]).

Lemma Diff_writes reads status :
  ran = Waited reads status → accepting out →
  contents (Diff filepath_Join execCommand wt out path localFile).1
  = contents out ++ mjoin reads.
Proof.
  intros Hran Hw. rewrite <- (Run_contents ran out reads status Hran Hw).
  unfold Diff. destruct (Run ran out) as [out' [e|]]; [|done].
  destruct e; try done. by destruct (_ && _).
Qed.

Lemma Diff_status_0 reads status :
  ran = Waited reads status → accepting out →
  ExitStatus status = 0 →
  (Diff filepath_Join execCommand wt out path localFile).2 = (false, None).
Proof.
  intros Hran Hw Hst. unfold Diff. rewrite Hran. unfold Run, Success.
  rewrite (bool_decide_true _ Hst). simpl negb. cbv iota.
  by destruct (io_Copy_accepting reads out Hw) as (out' & -> & _).
Qed.

Lemma Diff_status_1 reads status :
  ran = Waited reads status →
  ExitStatus status = 1 →
  (Diff filepath_Join execCommand wt out path localFile).2 = (true, None).
Proof.
  intros Hran Hst. unfold Diff. rewrite Hran. unfold Run, Success.
  rewrite (bool_decide_false (ExitStatus status = 0)) by (rewrite Hst; lia).
  simpl negb. cbv iota.
  assert (Hex : Exited status = true).
  { unfold ExitStatus in Hst. destruct (Exited status); [done|lia]. }
  destruct (io_Copy out reads) as [out' copyError].
  by rewrite Hex, bool_decide_true.
Qed.

Lemma Diff_status_other reads status :
  ran = Waited reads status →
  ExitStatus status ≠ 0 → ExitStatus status ≠ 1 →
  (Diff filepath_Join execCommand wt out path localFile).2
  = (false, Some (ExitError status)).
Proof.
  intros Hran H0 H1. unfold Diff. rewrite Hran. unfold Run, Success.
  rewrite (bool_decide_false _ H0). simpl negb. cbv iota.
  destruct (io_Copy out reads) as [out' copyError].
  rewrite (bool_decide_false _ H1). by rewrite andb_false_r.
Qed.

Lemma Diff_not_started msg :
  ran = NotStarted msg →
  Diff filepath_Join execCommand wt out path localFile
  = (out, (false, Some (errorString msg))).
Proof. intros Hran. unfold Diff. by rewrite Hran. Qed.

End Diff_properties.

(** C8: when [diff] has run, [Diff] returns [(false, nil)] for exit status
    0, [(true, nil)] for exit status 1 and an error (the [*exec.ExitError])
    for any other wait status; the writer receives the output in each case,
    however the reads of the pipe have cut it. That the writer takes the
    output is assumed where it matters: for what the writer holds
    afterwards, and for status 0, where an error of the copy would be
    returned. *)
Theorem Diff_exit_status :
  ∀ filepath_Join execCommand wt out path localFile reads status,
    execCommand "diff" ["-u"; diffPath filepath_Join wt path; localFile]
      = Waited reads status →
    (accepting out →
       contents (Diff filepath_Join execCommand wt out path localFile).1
         = contents out ++ mjoin reads)
    ∧ (accepting out → ExitStatus status = 0 →
       (Diff filepath_Join execCommand wt out path localFile).2 = (false, None))
    ∧ (ExitStatus status = 1 →
       (Diff filepath_Join execCommand wt out path localFile).2 = (true, None))
    ∧ (ExitStatus status ≠ 0 → ExitStatus status ≠ 1 →
       (Diff filepath_Join execCommand wt out path localFile).2
       = (false, Some (ExitError status)))
    ∧ (∀ code, 0 ≤ code ≤ 255 → status = exit_code code → accepting out →
       (Diff filepath_Join execCommand wt out path localFile).2
       = if bool_decide (code = 0) then (false, None)
         else if bool_decide (code = 1) then (true, None)
         else (false, Some (ExitError status))).
Proof.
  intros filepath_Join execCommand wt out path localFile reads status Hran.
  split_and!.
  - intros Hw. by eapply Diff_writes.
  - intros Hw Hst. by eapply Diff_status_0.
  - intros Hst. by eapply Diff_status_1.
  - intros H0 H1. by eapply Diff_status_other.
  - intros code Hc -> Hw. destruct (exit_code_status code Hc) as [_ Hst].
    repeat case_bool_decide.
    + eapply Diff_status_0; [done..|]. by rewrite Hst.
    + eapply Diff_status_1; [done|]. by rewrite Hst.
    + eapply Diff_status_other; [done|by rewrite Hst..].
Qed.

Lemma Diff_exit_status_witness :
  Diff joinPath
    (diffExiting [to_bytes "-old" ++ [newline]; to_bytes "+new" ++ [newline]] 1)
    srcTree buffer "foo.go" "/vendor/foo.go"
  = ({| chunks := [to_bytes "-old" ++ [newline]; to_bytes "+new" ++ [newline]];
        refuses := refuses buffer |}, (true, None))
  ∧ (Diff joinPath (diffExiting [] 2) srcTree buffer "foo.go" "/vendor/foo.go").2
    = (false, Some (ExitError 512)).
Proof.
  split; [by vm_compute|].
  destruct (Diff_exit_status joinPath (diffExiting [] 2) srcTree buffer "foo.go"
              "/vendor/foo.go" [] (exit_code 2) eq_refl) as (_ & _ & _ & Hother & _).
  apply Hother; by vm_compute.
Defined.

(** * Further properties *)

(** ** [PseudoVersion]: errors *)

Lemma PseudoVersion_tag_error d rev tag e :
  ReachableTag d rev = (tag, Some e) → e ≠ ErrorVersionNotFound →
  PseudoVersion d rev = Returns ("", Some e).
Proof.
  intros Htag Hne. unfold PseudoVersion. rewrite Htag.
  rewrite bool_decide_false; [done|]. by intros [= ->].
Qed.

Lemma PseudoVersion_time_error d rev t e :
  (snd (ReachableTag d rev) = None ∨
   snd (ReachableTag d rev) = Some ErrorVersionNotFound) →
  TimeFromRevision d rev = (t, Some e) →
  PseudoVersion d rev = Returns ("", Some e).
Proof.
  intros Htag Htime. unfold PseudoVersion. rewrite Htime.
  destruct (ReachableTag d rev) as [tag err]. simpl in Htag.
  destruct Htag as [-> | ->].
  - rewrite bool_decide_false by done.
    destruct (semver.NewVersion tag) as [ver|e'];
      [destruct (bool_decide (semver.Prerelease ver = ""))|]; done.
  - by rewrite bool_decide_true by done.
Qed.

Lemma PseudoVersion_error_source d rev s e :
  PseudoVersion d rev = Returns (s, Some e) →
  s = "" ∧
  ((snd (ReachableTag d rev) = Some e ∧ e ≠ ErrorVersionNotFound) ∨
   ((snd (ReachableTag d rev) = None ∨
     snd (ReachableTag d rev) = Some ErrorVersionNotFound) ∧
    snd (TimeFromRevision d rev) = Some e)).
Proof.
  unfold PseudoVersion.
  destruct (ReachableTag d rev) as [tag err].
  destruct (TimeFromRevision d rev) as [t terr]. simpl.
  destruct (decide (err = Some ErrorVersionNotFound)) as [->|Hnf].
  - rewrite bool_decide_true by done. destruct terr as [e'|].
    + intros [= <- <-]. split; [done|]. right. auto.
    + by destruct (bool_decide (12 ≤ String.length rev)%nat).
  - rewrite bool_decide_false by done. destruct err as [e'|].
    { intros [= <- <-]. split; [done|]. left. split; [done|]. by intros ->. }
    destruct (semver.NewVersion tag) as [ver|e'];
      [destruct (bool_decide (semver.Prerelease ver = ""))|]; simpl;
      (destruct terr as [e''|];
       [intros [= <- <-]; split; [done|]; right; auto
       |by destruct (bool_decide (12 ≤ String.length rev)%nat)]).
Qed.

(** X1: an error of [ReachableTag] other than [ErrorVersionNotFound], and
    an error of [TimeFromRevision], are returned as they are with an empty
    string, whatever the length of the revision; and [PseudoVersion] returns
    no other error than these. *)
Theorem PseudoVersion_errors d rev :
  (∀ tag e, ReachableTag d rev = (tag, Some e) → e ≠ ErrorVersionNotFound →
     PseudoVersion d rev = Returns ("", Some e))
  ∧ (∀ t e,
       (snd (ReachableTag d rev) = None ∨
        snd (ReachableTag d rev) = Some ErrorVersionNotFound) →
       TimeFromRevision d rev = (t, Some e) →
       PseudoVersion d rev = Returns ("", Some e))
  ∧ (∀ s e, PseudoVersion d rev = Returns (s, Some e) →
       s = "" ∧
       ((snd (ReachableTag d rev) = Some e ∧ e ≠ ErrorVersionNotFound) ∨
        ((snd (ReachableTag d rev) = None ∨
          snd (ReachableTag d rev) = Some ErrorVersionNotFound) ∧
         snd (TimeFromRevision d rev) = Some e))).
Proof.
  split_and!.
  - apply PseudoVersion_tag_error.
  - apply PseudoVersion_time_error.
  - apply PseudoVersion_error_source.
Qed.

Lemma PseudoVersion_errors_witness :
  PseudoVersion
    (fixedDescribable ("v1.2.3", None) (example_time, Some (errorString "bad revision")))
    "abc"
  = Returns ("", Some (errorString "bad revision")).
Proof.
  apply (proj1 (proj2 (PseudoVersion_errors _ _)) example_time); [by left|done].
Defined.

(** ** [PseudoVersion]: the order of the results *)

Lemma compare_app_common p a b :
  String.compare (p +:+ a) (p +:+ b) = String.compare a b.
Proof.
  induction p as [|c p IH]; [done|].
  change (String.compare (String c (p +:+ a)) (String c (p +:+ b)) = String.compare a b).
  cbn [String.compare]. unfold Ascii.compare. by rewrite N.compare_refl.
Qed.

Lemma compare_app_lt a b x y :
  String.length a = String.length b →
  String.compare a b = Lt → String.compare (a +:+ x) (b +:+ y) = Lt.
Proof.
  revert b. induction a as [|c a IH]; intros [|c' b] Hlen Hlt; try done.
  change (String.compare (String c (a +:+ x)) (String c' (b +:+ y)) = Lt).
  cbn [String.compare] in Hlt |- *.
  destruct (Ascii.compare c c'); [|done|done].
  apply IH; [|done]. simpl in Hlen. lia.
Qed.

Lemma appendInt_2_lt x y :
  0 ≤ x → x < y → y ≤ 99 →
  String.compare (appendInt x 2) (appendInt y 2) = Lt.
Proof.
  intros H0 Hlt H99.
  assert (Hall : forallb (λ a, forallb (λ b,
                   implb (a <? b)
                     (match String.compare (appendInt a 2) (appendInt b 2) with
                      | Lt => true | _ => false end))
                   (seqZ 0 100)) (seqZ 0 100) = true) by (by vm_compute).
  rewrite forallb_forall in Hall.
  assert (Hin : ∀ z, 0 ≤ z ≤ 99 → In z (seqZ 0 100)).
  { intros z Hz. apply list_elem_of_In, elem_of_seqZ. lia. }
  specialize (Hall x (Hin x ltac:(lia))). rewrite forallb_forall in Hall.
  specialize (Hall y (Hin y ltac:(lia))).
  rewrite (proj2 (Z.ltb_lt x y) Hlt) in Hall. simpl in Hall.
  by destruct (String.compare _ _).
Qed.

Lemma appendInt_4_split y :
  0 ≤ y ≤ 9999 → appendInt y 4 = appendInt (y / 100) 2 +:+ appendInt (y mod 100) 2.
Proof.
  intros Hy.
  assert (Hall : forallb (λ a, String.eqb (appendInt a 4)
                                 (appendInt (a / 100) 2 +:+ appendInt (a mod 100) 2))
                   (seqZ 0 10000) = true) by (by vm_compute).
  rewrite forallb_forall in Hall. apply String.eqb_eq, Hall.
  apply list_elem_of_In, elem_of_seqZ. lia.
Qed.

Lemma appendInt_4_lt x y :
  0 ≤ x → x < y → y ≤ 9999 →
  String.compare (appendInt x 4) (appendInt y 4) = Lt.
Proof.
  intros H0 Hlt H99. rewrite !appendInt_4_split by lia.
  pose proof (Z.div_mod x 100 ltac:(lia)) as Hx.
  pose proof (Z.div_mod y 100 ltac:(lia)) as Hy.
  pose proof (Z.mod_pos_bound x 100 ltac:(lia)) as Hrx.
  pose proof (Z.mod_pos_bound y 100 ltac:(lia)) as Hry.
  assert (0 ≤ x / 100) by lia.
  assert (y / 100 ≤ 99) by lia.
  destruct (decide (x / 100 = y / 100)) as [Heq|Hne].
  - rewrite Heq, compare_app_common. apply appendInt_2_lt; lia.
  - apply compare_app_lt.
    + rewrite !appendInt_2; [done|lia..].
    + apply appendInt_2_lt; lia.
Qed.

(** Timestamps of the layout compare as the times do. *)
Lemma Format_reads_before t1 t2 :
  four_digit_year t1 → four_digit_year t2 → reads_before t1 t2 →
  String.compare (Format t1) (Format t2) = Lt.
Proof.
  intros [(Hmo1 & Hd1 & Hh1 & Hmi1 & Hs1) Hy1] [(Hmo2 & Hd2 & Hh2 & Hmi2 & Hs2) Hy2].
  unfold reads_before, Format.
  intros [Hlt|[-> Hrest]].
  { apply compare_app_lt; [by rewrite !appendInt_4|by apply appendInt_4_lt; lia]. }
  rewrite compare_app_common. destruct Hrest as [Hlt|[-> Hrest]].
  { apply compare_app_lt; [by rewrite !appendInt_2 by lia|apply appendInt_2_lt; lia]. }
  rewrite compare_app_common. destruct Hrest as [Hlt|[-> Hrest]].
  { apply compare_app_lt; [by rewrite !appendInt_2 by lia|apply appendInt_2_lt; lia]. }
  rewrite compare_app_common. destruct Hrest as [Hlt|[-> Hrest]].
  { apply compare_app_lt; [by rewrite !appendInt_2 by lia|apply appendInt_2_lt; lia]. }
  rewrite compare_app_common. destruct Hrest as [Hlt|[-> Hlt]].
  { apply compare_app_lt; [by rewrite !appendInt_2 by lia|apply appendInt_2_lt; lia]. }
  rewrite compare_app_common. apply appendInt_2_lt; lia.
Qed.

(** Two revisions with the same reachable-tag answer get the same base and
    suffix. *)
Lemma PseudoVersion_same_tag d rev1 rev2 t1 t2 :
  ReachableTag d rev1 = ReachableTag d rev2 →
  (snd (ReachableTag d rev1) = None ∨
   snd (ReachableTag d rev1) = Some ErrorVersionNotFound) →
  TimeFromRevision d rev1 = (t1, None) → TimeFromRevision d rev2 = (t2, None) →
  (12 ≤ String.length rev1)%nat → (12 ≤ String.length rev2)%nat →
  ∃ front,
    PseudoVersion d rev1 =
      Returns (front +:+ Format t1 +:+ "-" +:+ String.substring 0 12 rev1, None) ∧
    PseudoVersion d rev2 =
      Returns (front +:+ Format t2 +:+ "-" +:+ String.substring 0 12 rev2, None).
Proof.
  intros Hsame Hok Ht1 Ht2 Hl1 Hl2.
  destruct (ReachableTag d rev1) as [tag err] eqn:Htag1. symmetry in Hsame.
  simpl in Hok. destruct Hok as [-> | ->].
  - destruct (semver.NewVersion tag) as [ver|e] eqn:Hparse.
    + destruct (decide (semver.Prerelease ver = "")) as [Hpre|Hpre].
      * exists (("v" +:+ semver.String (semver.IncPatch ver)) +:+ "-0.").
        rewrite !string_app_assoc.
        rewrite <- (string_app_assoc "v").
        split; by eapply PseudoVersion_release.
      * exists (("v" +:+ semver.String ver) +:+ ".0.").
        rewrite !string_app_assoc.
        rewrite <- (string_app_assoc "v").
        split; by eapply PseudoVersion_prerelease.
    + exists (tag +:+ "-1."). rewrite !string_app_assoc.
      split; by eapply PseudoVersion_unparsed.
  - exists ("v0.0.0" +:+ "-0."). rewrite !string_app_assoc.
    split; by eapply PseudoVersion_not_found.
Qed.

(** X2: for two revisions with the same reachable-tag answer, the byte
    order of the pseudo-versions is the order of the dates and clocks that
    [Format] prints (years 0 to 9999), each commit time being read in its
    own location, and for equal readings the order of the two 12-byte
    revision prefixes. For two commit times in different locations this is
    the order of the readings, not that of the instants. *)
Theorem PseudoVersion_timestamp_order d rev1 rev2 t1 t2 :
  ReachableTag d rev1 = ReachableTag d rev2 →
  (snd (ReachableTag d rev1) = None ∨
   snd (ReachableTag d rev1) = Some ErrorVersionNotFound) →
  TimeFromRevision d rev1 = (t1, None) → TimeFromRevision d rev2 = (t2, None) →
  four_digit_year t1 → four_digit_year t2 →
  (12 ≤ String.length rev1)%nat → (12 ≤ String.length rev2)%nat →
  ∃ s1 s2,
    PseudoVersion d rev1 = Returns (s1, None) ∧
    PseudoVersion d rev2 = Returns (s2, None) ∧
    (reads_before t1 t2 → String.compare s1 s2 = Lt) ∧
    (t1 = t2 →
     String.compare s1 s2 =
       String.compare (String.substring 0 12 rev1) (String.substring 0 12 rev2)).
Proof.
  intros Hsame Hok Ht1 Ht2 Hy1 Hy2 Hl1 Hl2.
  destruct (PseudoVersion_same_tag d rev1 rev2 t1 t2 Hsame Hok Ht1 Ht2 Hl1 Hl2)
    as (front & H1 & H2).
  eexists _, _. split_and!; [exact H1|exact H2| |].
  - intros Hbefore. rewrite compare_app_common. apply compare_app_lt.
    + destruct Hy1, Hy2. by rewrite !Format_length.
    + by apply Format_reads_before.
  - intros ->. by rewrite !compare_app_common.
Qed.

Lemma PseudoVersion_timestamp_order_witness :
  ∃ s1 s2,
    PseudoVersion twoCommits "abcdef0123456789" = Returns (s1, None) ∧
    PseudoVersion twoCommits "0123456789abcdef" = Returns (s2, None) ∧
    String.compare s1 s2 = Lt.
Proof.
  assert (Hy1 : four_digit_year example_time) by (unfold four_digit_year, valid_Time; simpl; lia).
  assert (Hy2 : four_digit_year (mkTime 2019 1 2 3 4 6))
    by (unfold four_digit_year, valid_Time; simpl; lia).
  assert (Hl1 : (12 ≤ String.length "abcdef0123456789")%nat) by (simpl; lia).
  assert (Hl2 : (12 ≤ String.length "0123456789abcdef")%nat) by (simpl; lia).
  destruct (PseudoVersion_timestamp_order twoCommits "abcdef0123456789" "0123456789abcdef"
              example_time (mkTime 2019 1 2 3 4 6) eq_refl (or_introl eq_refl)
              eq_refl eq_refl Hy1 Hy2 Hl1 Hl2) as (s1 & s2 & H1 & H2 & Hlt & _).
  exists s1, s2. split_and!; [done..|]. apply Hlt. unfold reads_before. simpl. lia.
Defined.

(** ** [VersionTags]: the backend's error, and the choice of the sort *)

Lemma parsedTags_version tags tag :
  tag ∈ filter (λ tag, parses tag = true) tags →
  ∃ ver, semver.NewVersion tag = inl ver ∧ ver ∈ (parsedTags tags).*2.
Proof.
  rewrite <- parsedTags_filter. intros Hin.
  apply list_elem_of_fmap in Hin as ([tag' ver] & -> & Hin). exists ver. split.
  - by eapply parsedTags_parse.
  - apply list_elem_of_fmap. by exists (tag', ver).
Qed.

(** X3: when the backend cannot list the tags, [VersionTags] returns its
    error with no tag, for any sort; otherwise it returns no error. And when
    [LessThan] is consistent on the versions and no two of them compare as
    equal, the result does not depend on the sorting algorithm: any two
    sorts that meet the contract of [sort.Sort] give the same list. *)
Theorem VersionTags_determined cmp wt :
  (∀ Sort e, snd (Tags (VCS wt) (Dir wt)) = Some e →
     VersionTags Sort cmp wt = ([], Some e))
  ∧ (∀ Sort, snd (Tags (VCS wt) (Dir wt)) = None →
       snd (VersionTags Sort cmp wt) = None)
  ∧ (∀ Sort1 Sort2 tags,
       sort.sorts Sort1 → sort.sorts Sort2 →
       Tags (VCS wt) (Dir wt) = (tags, None) →
       sort.consistent_on (semver.LessThan cmp) (parsedTags tags).*2 →
       untied cmp (parsedTags tags).*2 →
       VersionTags Sort1 cmp wt = VersionTags Sort2 cmp wt).
Proof.
  split_and!.
  - intros Sort e He. unfold VersionTags.
    destruct (Tags (VCS wt) (Dir wt)) as [tags err]. simpl in He. by subst err.
  - intros Sort He. unfold VersionTags.
    destruct (Tags (VCS wt) (Dir wt)) as [tags err]. simpl in He. by subst err.
  - intros Sort1 Sort2 tags HS1 HS2 Htags Hcons Hun.
    destruct (VersionTags_spec Sort1 cmp wt tags HS1 Htags) as (out1 & -> & Hp1 & Ho1).
    destruct (VersionTags_spec Sort2 cmp wt tags HS2 Htags) as (out2 & -> & Hp2 & Ho2).
    destruct (Ho1 Hcons) as [_ Hs1]. destruct (Ho2 Hcons) as [_ Hs2].
    f_equal. eapply StronglySorted_unique_strong; [|by apply Hs1|by apply Hs2|].
    + intros a b Ha Hb Hab Hba. exfalso.
      rewrite Hp1 in Ha. rewrite Hp2 in Hb.
      apply parsedTags_version in Ha as (va & Hva & Hina).
      apply parsedTags_version in Hb as (vb & Hvb & Hinb).
      specialize (Hab va vb Hva Hvb). specialize (Hba vb va Hvb Hva).
      destruct Hcons as [Hasym _]. rewrite (Hasym vb va) in Hba; done.
    + by rewrite Hp1, Hp2.
Qed.

Lemma reversingSort_sorts : sort.sorts reversingSort.
Proof.
  destruct insertionSort_sorts as [Hperm Hord]. split.
  - intros A less l. unfold reversingSort. by rewrite Hperm, reverse_Permutation.
  - intros A less l [Hasym Hneg]. unfold reversingSort. apply Hord. split.
    + intros a b Ha Hb. apply Hasym; by apply elem_of_reverse.
    + intros a b c Ha Hb Hc. apply Hneg; by apply elem_of_reverse.
Qed.

Lemma VersionTags_determined_witness :
  VersionTags sort.insertionSort bytewise
    (treeWithTags ["v1.0.0"; "not-a-version"; "v2.0.0"; "v1.5.0-rc1"])
  = VersionTags reversingSort bytewise
      (treeWithTags ["v1.0.0"; "not-a-version"; "v2.0.0"; "v1.5.0-rc1"]).
Proof.
  apply (proj2 (proj2 (VersionTags_determined bytewise
           (treeWithTags ["v1.0.0"; "not-a-version"; "v2.0.0"; "v1.5.0-rc1"])))
           sort.insertionSort reversingSort
           ["v1.0.0"; "not-a-version"; "v2.0.0"; "v1.5.0-rc1"]
           insertionSort_sorts reversingSort_sorts eq_refl).
  - split.
    + intros a b Ha Hb. vm_compute in Ha, Hb. set_unfold in Ha. set_unfold in Hb.
      destruct_or!; subst; by vm_compute.
    + intros a b c Ha Hb Hc. vm_compute in Ha, Hb, Hc.
      set_unfold in Ha. set_unfold in Hb. set_unfold in Hc.
      destruct_or!; subst; by vm_compute.
  - intros i j vi vj Hne Hi Hj.
    destruct i as [|[|[|i]]], j as [|[|[|j]]]; try done;
      vm_compute in Hi, Hj; simplify_eq; vm_compute; auto.
Defined.

(** ** [NewWorkingTree] and [Close] *)

Lemma add_remove_dir (ds : gset string) (dir : string) :
  dir ∉ ds → (ds ∪ {[dir]}) ∖ {[dir]} = ds.
Proof.
  intros Hnew. apply set_eq. intros x.
  rewrite elem_of_difference, elem_of_union, elem_of_singleton.
  split; [by intros [[?|?] ?]|]. intros Hx. split; [by left|]. by intros ->.
Qed.

Section NewWorkingTree_properties.

Variables vcsGit vcsHg : string.
Variable vcs_Create : vcs_Cmd → string → string → option error.
Variables (fs : FileSystem) (project : RepoRoot).

Abbreviation created := (NewWorkingTree vcsGit vcsHg vcs_Create fs project).

(** The temporary directory is a new one. *)
Hypothesis Hnew : ∀ dir, tempName fs (dirs fs) = inl dir → dir ∉ dirs fs.

Lemma NewWorkingTree_failure e :
  (∀ path, undeletable fs path = None) →
  (created.2) = (None, Some e) → dirs (created.1) = dirs fs.
Proof.
  intros Hdel. unfold NewWorkingTree, TempDir, Close, RemoveAll.
  destruct (tempName fs (dirs fs)) as [dir|e'] eqn:Htemp; [|done].
  specialize (Hnew dir eq_refl).
  destruct (vcs_Create _ _ _) as [e'|]; simpl.
  { rewrite Hdel. simpl. intros _. by apply add_remove_dir. }
  repeat case_bool_decide; try done. simpl. rewrite Hdel. simpl.
  intros _. by apply add_remove_dir.
Qed.

Lemma NewWorkingTree_success w :
  (created.2) = (Some w, None) →
  (Dir (embedded w) ∉ dirs fs) ∧
  dirs (created.1) = dirs fs ∪ {[Dir (embedded w)]} ∧
  VCS (embedded w) = root_VCS project ∧
  (w = gitWorkingTree (embedded w) gitHasher ∧ Cmd (root_VCS project) = vcsGit ∨
   w = hgWorkingTree (embedded w) sha256Hasher ∧ Cmd (root_VCS project) = vcsHg ∧
   Cmd (root_VCS project) ≠ vcsGit) ∧
  (undeletable fs (Dir (embedded w)) = None →
   Close (created.1) (embedded w) =
     ({| dirs := dirs fs; tempName := tempName fs; undeletable := undeletable fs |}, None)).
Proof.
  unfold NewWorkingTree, TempDir, Close, RemoveAll.
  destruct (tempName fs (dirs fs)) as [dir|e'] eqn:Htemp; [|done].
  specialize (Hnew dir eq_refl).
  destruct (vcs_Create _ _ _) as [e'|]; simpl.
  { by destruct (undeletable fs dir). }
  case_bool_decide as Hgit; [|case_bool_decide as Hhg]; simpl.
  - intros [= <-]. simpl. split_and!; [done..|by left|].
    intros ->. simpl. do 2 f_equal. by apply add_remove_dir.
  - intros [= <-]. simpl. split_and!; [done..|by right|].
    intros ->. simpl. do 2 f_equal. by apply add_remove_dir.
  - by destruct (undeletable fs dir).
Qed.

Lemma NewWorkingTree_one_result :
  (∃ w, (created.2) = (Some w, None)) ∨ (∃ e, (created.2) = (None, Some e)).
Proof.
  unfold NewWorkingTree, TempDir, Close, RemoveAll.
  destruct (tempName fs (dirs fs)) as [dir|e']; [|by right; eexists].
  destruct (vcs_Create _ _ _) as [e'|]; simpl.
  { destruct (undeletable fs dir); by right; eexists. }
  repeat case_bool_decide; simpl; [by left; eexists..|].
  destruct (undeletable fs dir); by right; eexists.
Qed.

Lemma NewWorkingTree_unknown dir :
  tempName fs (dirs fs) = inl dir →
  vcs_Create (root_VCS project) dir (Repo project) = None →
  Cmd (root_VCS project) ≠ vcsGit → Cmd (root_VCS project) ≠ vcsHg →
  (created.2) = (None, Some ErrorUnknownVCS).
Proof.
  intros Htemp Hcreate Hgit Hhg. unfold NewWorkingTree, TempDir, Close, RemoveAll.
  rewrite Htemp, Hcreate. simpl. rewrite !bool_decide_false by done.
  by destruct (undeletable fs dir).
Qed.

(** What [NewWorkingTree] does when the directory cannot be removed: the
    error of [os.RemoveAll] is dropped and the directory stays. *)
Lemma NewWorkingTree_leak dir e e' :
  tempName fs (dirs fs) = inl dir →
  undeletable fs dir = Some e' →
  vcs_Create (root_VCS project) dir (Repo project) = Some e ∨
  (vcs_Create (root_VCS project) dir (Repo project) = None ∧
   Cmd (root_VCS project) ≠ vcsGit ∧ Cmd (root_VCS project) ≠ vcsHg ∧
   e = ErrorUnknownVCS) →
  (created.2) = (None, Some e) ∧ dirs (created.1) = dirs fs ∪ {[dir]}.
Proof.
  intros Htemp Hdel Hwhy. unfold NewWorkingTree, TempDir, Close, RemoveAll.
  rewrite Htemp. destruct Hwhy as [Hc|(Hc & Hgit & Hhg & ->)]; rewrite Hc; simpl.
  - by rewrite Hdel.
  - rewrite !bool_decide_false by done. simpl. by rewrite Hdel.
Qed.

End NewWorkingTree_properties.

(** X4: when the temporary directory is a new one and directories can be
    removed, [NewWorkingTree] returns either a working tree or an error,
    never both and never neither; with an error the directories are as they
    were before the call; with a working tree exactly its directory was
    added, the tree is a [gitWorkingTree] with the [gitHasher] or an
    [hgWorkingTree] with the [sha256Hasher] as [Cmd] says, and [Close] puts
    the directories back as they were. *)
Theorem NewWorkingTree_lifecycle vcsGit vcsHg vcs_Create fs project :
  (∀ dir, tempName fs (dirs fs) = inl dir → dir ∉ dirs fs) →
  (∀ path, undeletable fs path = None) →
  ((∃ w, (NewWorkingTree vcsGit vcsHg vcs_Create fs project).2 = (Some w, None)) ∨
   (∃ e, (NewWorkingTree vcsGit vcsHg vcs_Create fs project).2 = (None, Some e)))
  ∧ (∀ e, (NewWorkingTree vcsGit vcsHg vcs_Create fs project).2 = (None, Some e) →
       dirs (NewWorkingTree vcsGit vcsHg vcs_Create fs project).1 = dirs fs)
  ∧ (∀ w, (NewWorkingTree vcsGit vcsHg vcs_Create fs project).2 = (Some w, None) →
       (Dir (embedded w) ∉ dirs fs) ∧
       dirs (NewWorkingTree vcsGit vcsHg vcs_Create fs project).1
         = dirs fs ∪ {[Dir (embedded w)]} ∧
       VCS (embedded w) = root_VCS project ∧
       (w = gitWorkingTree (embedded w) gitHasher ∧ Cmd (root_VCS project) = vcsGit ∨
        w = hgWorkingTree (embedded w) sha256Hasher ∧ Cmd (root_VCS project) = vcsHg ∧
        Cmd (root_VCS project) ≠ vcsGit) ∧
       Close (NewWorkingTree vcsGit vcsHg vcs_Create fs project).1 (embedded w) =
         ({| dirs := dirs fs; tempName := tempName fs; undeletable := undeletable fs |},
          None)).
Proof.
  intros Hnew Hdel. split_and!.
  - by apply NewWorkingTree_one_result.
  - intros e. by apply NewWorkingTree_failure.
  - intros w Hw.
    destruct (NewWorkingTree_success vcsGit vcsHg vcs_Create fs project Hnew w Hw)
      as (H1 & H2 & H3 & H4 & H5).
    split_and!; [done..|]. apply H5, Hdel.
Qed.

Lemma NewWorkingTree_lifecycle_witness :
  dirs (NewWorkingTree "git" "hg" failingCreate emptyFS (projectIn "git")).1 = ∅
  ∧ ∃ w, (NewWorkingTree "git" "hg" workingCreate emptyFS (projectIn "hg")).2
         = (Some w, None) ∧
         w = hgWorkingTree (embedded w) sha256Hasher.
Proof.
  assert (Hnew : ∀ dir, tempName emptyFS (dirs emptyFS) = inl dir → dir ∉ dirs emptyFS).
  { intros dir _. apply not_elem_of_empty. }
  assert (Hdel : ∀ path, undeletable emptyFS path = None) by done.
  split.
  - apply (proj1 (proj2 (NewWorkingTree_lifecycle "git" "hg" failingCreate emptyFS
                           (projectIn "git") Hnew Hdel))
             (errorString "exit status 128")).
    reflexivity.
  - destruct (NewWorkingTree_lifecycle "git" "hg" workingCreate emptyFS
                (projectIn "hg") Hnew Hdel) as (_ & _ & Hok).
    eexists. split; [reflexivity|].
    destruct (Hok _ eq_refl) as (_ & _ & _ & [[_ Hgit]|[Hhg _]] & _); [done|exact Hhg].
Defined.

(** X5: a version control system that is neither [vcsGit] nor [vcsHg] is
    refused with [ErrorUnknownVCS] once the checkout was made; and when the
    directory cannot be removed after a failed [Create] or for an unknown
    system, the error of the removal is dropped: the caller gets the error
    of [Create] or [ErrorUnknownVCS], and the directory stays. *)
Theorem NewWorkingTree_cleanup_unreported vcsGit vcsHg vcs_Create fs project dir :
  tempName fs (dirs fs) = inl dir →
  (vcs_Create (root_VCS project) dir (Repo project) = None →
   Cmd (root_VCS project) ≠ vcsGit → Cmd (root_VCS project) ≠ vcsHg →
   (NewWorkingTree vcsGit vcsHg vcs_Create fs project).2 = (None, Some ErrorUnknownVCS))
  ∧ (∀ e e',
       undeletable fs dir = Some e' →
       vcs_Create (root_VCS project) dir (Repo project) = Some e ∨
       (vcs_Create (root_VCS project) dir (Repo project) = None ∧
        Cmd (root_VCS project) ≠ vcsGit ∧ Cmd (root_VCS project) ≠ vcsHg ∧
        e = ErrorUnknownVCS) →
       (NewWorkingTree vcsGit vcsHg vcs_Create fs project).2 = (None, Some e) ∧
       dirs (NewWorkingTree vcsGit vcsHg vcs_Create fs project).1 = dirs fs ∪ {[dir]}).
Proof.
  intros Htemp. split.
  - intros Hcreate Hgit Hhg. by eapply NewWorkingTree_unknown.
  - intros e e' Hdel Hwhy. by eapply NewWorkingTree_leak.
Qed.

Lemma NewWorkingTree_cleanup_unreported_witness :
  (NewWorkingTree "git" "hg" workingCreate stuckFS (projectIn "svn")).2
  = (None, Some ErrorUnknownVCS)
  ∧ dirs (NewWorkingTree "git" "hg" workingCreate stuckFS (projectIn "svn")).1
    = dirs stuckFS ∪ {["/tmp/retrodep.1"]}.
Proof.
  apply (proj2 (NewWorkingTree_cleanup_unreported "git" "hg" workingCreate stuckFS
                  (projectIn "svn") "/tmp/retrodep.1" eq_refl)
           ErrorUnknownVCS (errorString "permission denied") eq_refl).
  right. by split_and!.
Defined.

(** ** [StripImportComment]: what [changed] tells *)

(** A rewritten line has lost at least the white space and the opening of
    the comment. *)
Lemma removeImportComment_shorter line out :
  removeImportComment line = Some out → (length out + 3 ≤ length line)%nat.
Proof.
  intros Hout. destruct (removeImportComment_forms line out Hout)
    as [[decl Hform]|(decl & rest & Hform)].
  - rewrite (removeImportComment_line_form line decl Hform) in Hout.
    injection Hout as <-. destruct Hform as (ws & imp & _ & Hne & _ & _ & ->).
    rewrite !length_app. destruct ws; [done|]. simpl. lia.
  - rewrite (removeImportComment_block_form line decl rest Hform) in Hout.
    injection Hout as <-. destruct Hform as (ws & imp & _ & Hne & _ & _ & ->).
    destruct (upto_newline_split rest) as (s' & Hrest & _ & _).
    rewrite Hrest at 2. rewrite !length_app. destruct ws; [done|]. simpl. lia.
Qed.

Lemma emitted_length l :
  (if annotated l then (length (emitted l) + 2 ≤ length (l ++ [newline]))%nat
   else emitted l = l ++ [newline]).
Proof.
  unfold annotated, emitted. destruct (removeImportComment l) as [out|] eqn:Hout; [|done].
  apply removeImportComment_shorter in Hout. simpl. rewrite !length_app. simpl. lia.
Qed.

Lemma emitted_lines_length ls :
  (if existsb annotated ls
   then (length (mjoin (emitted <$> ls)) + 2
         ≤ length (mjoin ((λ l, l ++ [newline]) <$> ls)))%nat
   else mjoin (emitted <$> ls) = mjoin ((λ l, l ++ [newline]) <$> ls))
  ∧ (length (mjoin (emitted <$> ls))
     ≤ length (mjoin ((λ l, l ++ [newline]) <$> ls)))%nat.
Proof.
  induction ls as [|l ls [IH1 IH2]]; [done|].
  rewrite !fmap_cons, !mjoin_cons. cbn [existsb]. rewrite !length_app.
  pose proof (emitted_length l) as Hl.
  destruct (annotated l); cbn [orb].
  - rewrite length_app in Hl. destruct (existsb annotated ls); [lia|].
    rewrite IH1 in IH2 |- *. lia.
  - rewrite Hl. destruct (existsb annotated ls).
    + rewrite !length_app. split; lia.
    + rewrite IH1. split; [done|]. rewrite !length_app. lia.
Qed.

(** X6: on a [.go] file that reads without error, with a writer that takes
    everything, [StripImportComment] returns [changed = false] exactly when
    what it has written is the content of the file, byte for byte; and what
    it writes is never longer than the file and one newline. *)
Theorem StripImportComment_changed_exact filepath_Join os_Open wt path ls last w :
  HasSuffix path ".go" = true →
  os_Open (filepath_Join (Dir wt) path)
    = inl {| pending := file_of ls last; failure := None |} →
  accepting w → Forall (λ l, newline ∉ l) ls → newline ∉ last →
  ∃ w' changed,
    StripImportComment filepath_Join os_Open wt path w = Some (w', (changed, None)) ∧
    (changed = false ↔ contents w' = contents w ++ file_of ls last) ∧
    (length (contents w') ≤ length (contents w) + length (file_of ls last) + 1)%nat.
Proof.
  intros Hgo Hopen Hw Hls Hlast. eexists _, _.
  split; [by apply StripImportComment_file|].
  unfold contents, file_of. cbn [chunks]. rewrite !join_app, !length_app.
  destruct (emitted_lines_length ls) as [Hls1 Hls2].
  pose proof (emitted_length last) as Hl.
  destruct (decide (last = [])) as [->|Hne].
  - rewrite bool_decide_true by done. simpl. rewrite !app_nil_r, orb_false_r.
    split; [|lia]. destruct (existsb annotated ls).
    + split; [done|]. intros Heq%(f_equal length). rewrite !length_app in Heq. lia.
    + by rewrite Hls1.
  - rewrite bool_decide_false by done. rewrite orb_true_r, mjoin_cons.
    change (mjoin (@nil bytes)) with (@nil ascii). rewrite app_nil_r. split.
    + split; [done|]. intros Heq%(f_equal length). rewrite !length_app in Heq.
      destruct (annotated last).
      * rewrite length_app in Hl. simpl in Hl. lia.
      * rewrite Hl, !length_app in Heq. simpl in Heq.
        destruct (existsb annotated ls); [lia|]. rewrite Hls1 in Heq. lia.
    + destruct (annotated last).
      * rewrite length_app in Hl. simpl in Hl. lia.
      * rewrite Hl, !length_app. simpl. lia.
Qed.

Lemma StripImportComment_changed_exact_witness :
  ∃ w', StripImportComment joinPath
          (oneFile (file_of [to_bytes "package foo"; to_bytes "func main() {}"] []))
          srcTree "foo.go" buffer
        = Some (w', (false, None))
        ∧ contents w' = file_of [to_bytes "package foo"; to_bytes "func main() {}"] [].
Proof.
  assert (Hls : Forall (λ l : bytes, newline ∉ l)
                  [to_bytes "package foo"; to_bytes "func main() {}"]).
  { repeat constructor; apply (bool_decide_unpack _); by vm_compute. }
  assert (Hlast : newline ∉ ([] : bytes)) by apply not_elem_of_nil.
  assert (Hw : accepting buffer) by done.
  destruct (StripImportComment_changed_exact joinPath
              (oneFile (file_of [to_bytes "package foo"; to_bytes "func main() {}"] []))
              srcTree "foo.go" [to_bytes "package foo"; to_bytes "func main() {}"] []
              buffer eq_refl eq_refl Hw Hls Hlast) as (w' & changed & Hrun & Hiff & _).
  exists w'. assert (Hc : changed = false).
  { vm_compute in Hrun. by injection Hrun as _ <-. }
  subst changed. split; [exact Hrun|]. by apply Hiff.
Defined.

(** ** [StripImportComment]: errors *)

Lemma stripLine_refuses w changed line w' changed' werr :
  stripLine w changed line = (w', changed', werr) →
  refuses w' = refuses w ∧
  (∀ e, werr = Some e → ∃ cs p, refuses w cs p = Some e).
Proof.
  unfold stripLine. case_bool_decide; [|by intros [= <- _ <-]].
  destruct (removeImportComment _) as [repl|]; unfold Write;
    destruct (refuses w _ _) eqn:Href; intros [= <- _ <-]; (split; [done|]);
    intros e' [= <-]; eauto.
Qed.

(** An error of the loop comes from the file or from the writer, and comes
    with [changed = false]. *)
Lemma stripLoop_error fuel b w changed w' c e :
  stripLoop fuel b w changed = Some (w', (c, Some e)) →
  c = false ∧ ∃ cause, e = errors_Wrap cause "StripImportComment" ∧
    ((failure b = Some cause ∧ cause ≠ io_EOF) ∨
     (∃ cs p, refuses w cs p = Some cause)).
Proof.
  revert b w changed. induction fuel as [|fuel IH]; intros b w changed; [done|].
  rewrite stripLoop_S.
  assert (Hb : ∀ line err b', ReadBytes b newline = (line, err, b') →
            failure b' = failure b ∧
            (∀ e', err = Some e' → e' ≠ io_EOF → failure b = Some e')).
  { unfold ReadBytes. intros line err b'.
    destruct (cut_after newline (pending b)) as [[l r]|]; intros [= _ <- <-].
    - by split.
    - split; [done|]. intros e' [= <-] Hne. by destruct (failure b). }
  destruct (ReadBytes b newline) as [[line err] b'].
  destruct (Hb line err b' eq_refl) as [Hfail Herr]. clear Hb.
  destruct (stripLine w changed line) as [[w1 c1] werr] eqn:Hline.
  apply stripLine_refuses in Hline as [Href Hwerr].
  assert (Hwrite : ∀ e', werr = Some e' →
            Some (w1, (false, Some (errors_Wrap e' "StripImportComment")))
              = Some (w', (c, Some e)) →
            c = false ∧ ∃ cause, e = errors_Wrap cause "StripImportComment" ∧
              ((failure b = Some cause ∧ cause ≠ io_EOF) ∨
               (∃ cs p, refuses w cs p = Some cause))).
  { intros e' He' [= _ <- <-]. split; [done|]. exists e'. split; [done|]. right. eauto. }
  destruct err as [e'|]; [case_bool_decide as Heof|]; cbv beta zeta iota.
  - destruct werr as [e''|]; [by apply Hwrite|done].
  - intros [= _ <- <-]. split; [done|]. exists e'. split; [done|]. left. auto.
  - destruct werr as [e''|]; [by apply Hwrite|].
    intros (Hc & cause & He & Hwhy)%IH. split; [done|]. exists cause. split; [done|].
    rewrite Hfail, Href in Hwhy. exact Hwhy.
Qed.

(** The loop on a file whose reading fails after the lines [ls] and the
    bytes [last]: the lines are written, [last] is not. *)
Lemma stripLoop_read_failure ls last e w changed fuel :
  e ≠ io_EOF → accepting w → Forall (λ l, newline ∉ l) ls → newline ∉ last →
  (length (file_of ls last) < fuel)%nat →
  stripLoop fuel {| pending := file_of ls last; failure := Some e |} w changed =
    Some ({| chunks := chunks w ++ (emitted <$> ls); refuses := refuses w |},
          (false, Some (errors_Wrap e "StripImportComment"))).
Proof.
  intros He Hw Hls Hlast. revert w changed fuel Hw.
  induction Hls as [|l ls Hl Hls IH]; intros w changed fuel Hw Hf.
  - destruct fuel as [|fuel]; [lia|]. rewrite stripLoop_S. unfold ReadBytes, file_of.
    simpl. rewrite cut_after_none by done. simpl.
    rewrite bool_decide_false by done. destruct w. by rewrite app_nil_r.
  - destruct fuel as [|fuel]; [lia|]. rewrite stripLoop_S. unfold ReadBytes.
    assert (Hfile : file_of (l :: ls) last = l ++ newline :: file_of ls last).
    { unfold file_of. simpl. by rewrite <- !app_assoc. }
    rewrite Hfile in Hf |- *. simpl pending. rewrite cut_after_line by done.
    rewrite stripLine_line by done. simpl failure.
    rewrite IH; [|done|].
    + simpl. by rewrite <- !app_assoc.
    + rewrite length_app in Hf. simpl in Hf. lia.
Qed.

(** X7: a path that does not end in [.go] is left alone: nothing is
    written and the results are [false] and a nil error; a file that cannot
    be opened gives the error of [os.Open], wrapped, and nothing written;
    and whenever [StripImportComment] returns an error, [changed] is
    [false] and the error wraps, under the name of the function, the error
    of [os.Open], an error of the file other than [io.EOF], or an error of
    the writer. *)
Theorem StripImportComment_errors filepath_Join os_Open wt path w :
  (HasSuffix path ".go" = false →
   StripImportComment filepath_Join os_Open wt path w = Some (w, (false, None)))
  ∧ (∀ cause, HasSuffix path ".go" = true →
       os_Open (filepath_Join (Dir wt) path) = inr cause →
       StripImportComment filepath_Join os_Open wt path w
       = Some (w, (false, Some (errors_Wrap cause "StripImportComment"))))
  ∧ (∀ w' changed e,
       StripImportComment filepath_Join os_Open wt path w = Some (w', (changed, Some e)) →
       changed = false ∧ HasSuffix path ".go" = true ∧
       ∃ cause, e = errors_Wrap cause "StripImportComment" ∧
         (os_Open (filepath_Join (Dir wt) path) = inr cause ∨
          (∃ r, os_Open (filepath_Join (Dir wt) path) = inl r ∧
                failure r = Some cause ∧ cause ≠ io_EOF) ∨
          (∃ cs p, refuses w cs p = Some cause))).
Proof.
  unfold StripImportComment. split_and!.
  - by intros ->.
  - intros cause -> Hopen. by rewrite Hopen.
  - intros w' changed e. destruct (HasSuffix path ".go"); [|done]. simpl negb. cbv iota.
    destruct (os_Open _) as [r|cause] eqn:Hopen.
    + intros (Hc & cause & He & Hwhy)%stripLoop_error. split_and!; [done..|].
      exists cause. split; [done|]. destruct Hwhy as [[Hf Hne]|Hw]; [|by auto].
      right. left. by exists r.
    + intros [= _ <- <-]. split_and!; [done..|]. exists cause. auto.
Qed.

(** X8: when reading a [.go] file fails with an error other than [io.EOF],
    after the complete lines [ls] and the bytes [last] of an unfinished
    line, a writer that takes everything has received the lines [ls],
    rewritten where they carry an import comment, and nothing of [last];
    the results are [false], also when a line was rewritten, and the
    wrapped error. *)
Theorem StripImportComment_read_failure filepath_Join os_Open wt path ls last e w :
  HasSuffix path ".go" = true →
  os_Open (filepath_Join (Dir wt) path)
    = inl {| pending := file_of ls last; failure := Some e |} →
  e ≠ io_EOF → accepting w → Forall (λ l, newline ∉ l) ls → newline ∉ last →
  StripImportComment filepath_Join os_Open wt path w =
    Some ({| chunks := chunks w ++ (emitted <$> ls); refuses := refuses w |},
          (false, Some (errors_Wrap e "StripImportComment"))).
Proof.
  intros Hgo Hopen He Hw Hls Hlast. unfold StripImportComment.
  rewrite Hgo, Hopen. simpl negb. cbv iota. simpl pending.
  by rewrite stripLoop_read_failure by (done || lia).
Qed.

Lemma StripImportComment_read_failure_witness :
  StripImportComment joinPath (brokenFile [line_comment_example] (to_bytes "func ma"))
    srcTree "foo.go" buffer
  = Some ({| chunks := [to_bytes "package foo" ++ [newline]]; refuses := refuses buffer |},
          (false, Some (errors_Wrap (errorString "input/output error")
                          "StripImportComment"))).
Proof.
  assert (Hls : Forall (λ l : bytes, newline ∉ l) [line_comment_example]).
  { repeat constructor; apply (bool_decide_unpack _); by vm_compute. }
  assert (Hlast : newline ∉ to_bytes "func ma").
  { apply (bool_decide_unpack _); by vm_compute. }
  assert (Hw : accepting buffer) by done.
  rewrite (StripImportComment_read_failure joinPath
             (brokenFile [line_comment_example] (to_bytes "func ma"))
             srcTree "foo.go" [line_comment_example] (to_bytes "func ma")
             (errorString "input/output error") buffer eq_refl eq_refl);
    [by vm_compute|done..].
Defined.

(** ** [Diff]: results, errors and the first operand *)



(** X10: the command that [Diff] runs is [diff -u operand localFile],
    where the operand is [/dev/null] for an empty path, the path itself
    when it starts with [/], and otherwise the path joined to the directory
    of the working tree: what [execCommand] answers for these arguments,
    and for no others, makes the result. *)
Theorem Diff_operand filepath_Join execCommand wt out path localFile operand :
  (path = "" ∧ operand = "/dev/null") ∨
  (String.get 0 path = Some "/"%char ∧ operand = path) ∨
  (path ≠ "" ∧ String.get 0 path ≠ Some "/"%char ∧
   operand = filepath_Join (Dir wt) path) →
  (∀ msg, execCommand "diff" ["-u"; operand; localFile] = NotStarted msg →
     Diff filepath_Join execCommand wt out path localFile
     = (out, (false, Some (errorString msg))))
  ∧ Diff filepath_Join execCommand wt out path localFile
    = Diff filepath_Join (λ _ _, execCommand "diff" ["-u"; operand; localFile])
        wt out path localFile.
Proof.
  intros Hop.
  assert (Hpath : diffPath filepath_Join wt path = operand).
  { unfold diffPath. destruct Hop as [[-> ->]|[[Habs ->]|(Hne & Hrel & ->)]].
    - done.
    - rewrite (bool_decide_false (path = "")) by (by intros ->).
      by rewrite (bool_decide_false (String.get 0 path ≠ Some "/"%char)) by auto.
    - rewrite (bool_decide_false (path = "")) by done.
      by rewrite (bool_decide_true (String.get 0 path ≠ Some "/"%char)) by done. }
  split.
  - intros msg Hran. unfold Diff. by rewrite Hpath, Hran.
  - unfold Diff. by rewrite Hpath.
Qed.

Lemma Diff_operand_witness :
  Diff joinPath echoCommand srcTree buffer "" "/vendor/foo.go"
  = (buffer, (false, Some (errorString "diff -u /dev/null /vendor/foo.go")))
  ∧ Diff joinPath echoCommand srcTree buffer "/etc/foo.go" "/vendor/foo.go"
    = (buffer, (false, Some (errorString "diff -u /etc/foo.go /vendor/foo.go")))
  ∧ Diff joinPath echoCommand srcTree buffer "foo.go" "/vendor/foo.go"
    = (buffer, (false, Some (errorString "diff -u /src/foo.go /vendor/foo.go"))).
Proof.
  split_and!.
  - apply (proj1 (Diff_operand joinPath echoCommand srcTree buffer "" "/vendor/foo.go"
                    "/dev/null" (or_introl (conj eq_refl eq_refl)))).
    reflexivity.
  - apply (proj1 (Diff_operand joinPath echoCommand srcTree buffer "/etc/foo.go"
                    "/vendor/foo.go" "/etc/foo.go"
                    (or_intror (or_introl (conj eq_refl eq_refl))))).
    reflexivity.
  - assert (Hrel : "foo.go" ≠ "" ∧ String.get 0 "foo.go" ≠ Some "/"%char ∧
                   "/src/foo.go" = joinPath (Dir srcTree) "foo.go") by done.
    apply (proj1 (Diff_operand joinPath echoCommand srcTree buffer "foo.go"
                    "/vendor/foo.go" "/src/foo.go" (or_intror (or_intror Hrel)))).
    reflexivity.
Defined.
